(** * Theme preference logic of the portfolio script

    A shallow embedding of the two live [initTheme] functions of the
    site's script:

    - [LocalTheme]:   src/assets/js/script.js, lines 118-163
                      (localStorage, icon helper [updateIcon]);
    - [SessionTheme]: the last [initTheme] of src/unnamed/part_000,
                      lines 316-364 (sessionStorage, helper [applyTheme],
                      a listener on the colour-scheme media query).

    The page is a record holding what the code reads and writes:
    [document.body] with its class list, the [#themeToggle] element with
    its [innerHTML] and click listeners, both Web Storage areas and the
    media query.  Statements of the script become computations in a small
    state monad that also carries the exception a property access on
    [null] raises. *)

From Stdlib Require Import Ascii.
From stdpp Require Import base tactics option strings list gmap.

Set Default Proof Using "Type".

(** ** Data model *)

(** The resolved appearance. *)
Inductive ThemeState := Dark | Light.

Global Instance ThemeState_eq_dec : EqDecision ThemeState.
Proof. solve_decision. Defined.

(** [isDark ? Dark : Light] *)
Definition of_bool (isDark : bool) : ThemeState :=
  if isDark then Dark else Light.

Definition opposite (t : ThemeState) : ThemeState :=
  match t with Dark => Light | Light => Dark end.

(** The string the click handlers store: [isDark ? 'dark' : 'light']. *)
Definition theme_name (isDark : bool) : string :=
  if isDark then "dark" else "light".

(** The double quote, for the markup literals below. *)
Definition dq : string := String "034"%char EmptyString.

(** ['<i class="fa-solid fa-sun"></i>'] *)
Definition sun_icon : string :=
  "<i class=" +:+ dq +:+ "fa-solid fa-sun" +:+ dq +:+ "></i>".

(** ['<i class="fa-solid fa-moon"></i>'] *)
Definition moon_icon : string :=
  "<i class=" +:+ dq +:+ "fa-solid fa-moon" +:+ dq +:+ "></i>".

(** [isDark ? sun : moon], the markup both helpers write. *)
Definition icon_of (isDark : bool) : string :=
  if isDark then sun_icon else moon_icon.

(** *** DOMTokenList: the [classList] of an element *)
Module ClassList.

Abbreviation t := (list string).

Definition contains (c : string) (cl : t) : bool := bool_decide (c ∈ cl).

(** [add] appends the token unless it is there already. *)
Definition add (c : string) (cl : t) : t :=
  if contains c cl then cl else cl ++ [c].

(** [remove] drops every occurrence of the token. *)
Definition remove (c : string) (cl : t) : t :=
  filter (λ x, x ≠ c) cl.

(** [toggle] removes a present token and returns [false], or adds an
    absent one and returns [true]. *)
Definition toggle (c : string) (cl : t) : t * bool :=
  if contains c cl then (remove c cl, false) else (cl ++ [c], true).

End ClassList.

Global Arguments ClassList.contains : simpl never.
Global Arguments ClassList.add : simpl never.
Global Arguments ClassList.remove : simpl never.
Global Arguments ClassList.toggle : simpl never.

(** *** Listeners

    The closures the two scripts register, named by where they come from. *)
Inductive ClickHandler :=
  | LocalClick      (* script.js, lines 146-153 *)
  | SessionClick.   (* part_000, lines 354-362 *)

Inductive ChangeHandler :=
  | SessionChange.  (* part_000, lines 346-350 *)

(** The [#themeToggle] element. *)
Record Button := {
  innerHTML : string;
  onclick : list ClickHandler;
}.

(** [window.matchMedia('(prefers-color-scheme: dark)')] *)
Record MediaQuery := {
  matches : bool;
  onchange : list ChangeHandler;
}.

(** What the theme code can see of the browser.  [body = None] stands for
    [document.body === null], [toggleBtn = None] for
    [document.getElementById('themeToggle') === null]. *)
Record World := {
  body : option ClassList.t;
  toggleBtn : option Button;
  localStorage : gmap string string;
  sessionStorage : gmap string string;
  mediaQuery : MediaQuery;
}.

Definition set_body (b : option ClassList.t) (w : World) : World :=
  {| body := b; toggleBtn := toggleBtn w; localStorage := localStorage w;
     sessionStorage := sessionStorage w; mediaQuery := mediaQuery w |}.

Definition set_toggleBtn (tb : option Button) (w : World) : World :=
  {| body := body w; toggleBtn := tb; localStorage := localStorage w;
     sessionStorage := sessionStorage w; mediaQuery := mediaQuery w |}.

Definition set_localStorage (st : gmap string string) (w : World) : World :=
  {| body := body w; toggleBtn := toggleBtn w; localStorage := st;
     sessionStorage := sessionStorage w; mediaQuery := mediaQuery w |}.

Definition set_sessionStorage (st : gmap string string) (w : World) : World :=
  {| body := body w; toggleBtn := toggleBtn w; localStorage := localStorage w;
     sessionStorage := st; mediaQuery := mediaQuery w |}.

Definition set_mediaQuery (mq : MediaQuery) (w : World) : World :=
  {| body := body w; toggleBtn := toggleBtn w; localStorage := localStorage w;
     sessionStorage := sessionStorage w; mediaQuery := mq |}.

(** The applied theme: whether the body carries the [dark-theme] class. *)
Definition applied (w : World) : option ThemeState :=
  cl ← body w; Some (of_bool (ClassList.contains "dark-theme" cl)).

(** The icon the toggle control shows, when there is a control. *)
Definition icon (w : World) : option string :=
  innerHTML <$> toggleBtn w.

(** ** The monad of script statements *)

Inductive exn := TypeError.

(** A statement runs in a world and leaves a world; it either completes
    with a value or throws.  Effects made before a throw stay. *)
Definition JS (A : Type) : Type := World → (A + exn) * World.

Definition ret {A} (a : A) : JS A := λ w, (inl a, w).

Definition bind {A B} (m : JS A) (f : A → JS B) : JS B := λ w,
  match m w with
  | (inl a, w') => f a w'
  | (inr e, w') => (inr e, w')
  end.

Declare Scope js_scope.
Delimit Scope js_scope with js.
Bind Scope js_scope with JS.
Notation "x <- m ;; k" := (bind m (λ x, k))
  (at level 20, m at level 99, k at level 200, only parsing) : js_scope.
Local Open Scope js_scope.

(** The world a statement leaves, and how it ended. *)
Definition after {A} (m : JS A) (w : World) : World := (m w).2.
Definition outcome {A} (m : JS A) (w : World) : A + exn := (m w).1.

(** [if (c) s], with no else branch. *)
Definition when (c : bool) (s : JS ()) : JS () :=
  if c then s else ret ().

(** *** Primitive statements *)
Module Js.

(** [body.classList.add(c)]; reading [classList] of [null] throws. *)
Definition body_classList_add (c : string) : JS () := λ w,
  match body w with
  | Some cl => (inl (), set_body (Some (ClassList.add c cl)) w)
  | None => (inr TypeError, w)
  end.

(** [body.classList.remove(c)] *)
Definition body_classList_remove (c : string) : JS () := λ w,
  match body w with
  | Some cl => (inl (), set_body (Some (ClassList.remove c cl)) w)
  | None => (inr TypeError, w)
  end.

(** [body.classList.toggle(c)] *)
Definition body_classList_toggle (c : string) : JS bool := λ w,
  match body w with
  | Some cl =>
      let '(cl', r) := ClassList.toggle c cl in (inl r, set_body (Some cl') w)
  | None => (inr TypeError, w)
  end.

(** [body.classList.contains(c)] *)
Definition body_classList_contains (c : string) : JS bool := λ w,
  match body w with
  | Some cl => (inl (ClassList.contains c cl), w)
  | None => (inr TypeError, w)
  end.

(** The truth value of [toggleBtn], as in [if (toggleBtn)]. *)
Definition toggleBtn_truthy : JS bool := λ w,
  (inl (bool_decide (is_Some (toggleBtn w))), w).

(** [toggleBtn.innerHTML = html] *)
Definition toggleBtn_set_innerHTML (html : string) : JS () := λ w,
  match toggleBtn w with
  | Some b =>
      (inl (),
       set_toggleBtn (Some {| innerHTML := html; onclick := onclick b |}) w)
  | None => (inr TypeError, w)
  end.

(** [toggleBtn.addEventListener('click', h)] *)
Definition toggleBtn_addEventListener (h : ClickHandler) : JS () := λ w,
  match toggleBtn w with
  | Some b =>
      (inl (),
       set_toggleBtn
         (Some {| innerHTML := innerHTML b; onclick := onclick b ++ [h] |}) w)
  | None => (inr TypeError, w)
  end.

(** [mediaQuery.matches] *)
Definition mediaQuery_matches : JS bool := λ w,
  (inl (matches (mediaQuery w)), w).

(** [mediaQuery.addEventListener('change', h)] *)
Definition mediaQuery_addEventListener (h : ChangeHandler) : JS () := λ w,
  (inl (),
   set_mediaQuery
     {| matches := matches (mediaQuery w);
        onchange := onchange (mediaQuery w) ++ [h] |} w).

(** [localStorage.getItem(k)]: [None] is [null]. *)
Definition localStorage_getItem (k : string) : JS (option string) := λ w,
  (inl (localStorage w !! k), w).

(** [localStorage.setItem(k, v)] *)
Definition localStorage_setItem (k v : string) : JS () := λ w,
  (inl (), set_localStorage (<[k:=v]> (localStorage w)) w).

(** [sessionStorage.getItem(k)] *)
Definition sessionStorage_getItem (k : string) : JS (option string) := λ w,
  (inl (sessionStorage w !! k), w).

(** [sessionStorage.setItem(k, v)] *)
Definition sessionStorage_setItem (k v : string) : JS () := λ w,
  (inl (), set_sessionStorage (<[k:=v]> (sessionStorage w)) w).

(** Truth value of what [getItem] returned: [null] and the empty string
    are falsy, every other string is truthy. *)
Definition truthy (v : option string) : bool :=
  match v with
  | None => false
  | Some s => negb (bool_decide (s = ""))
  end.

(** [v === s] for a string-or-null [v] and a string literal [s]. *)
Definition strict_eq (v : option string) (s : string) : bool :=
  bool_decide (v = Some s).

End Js.

(** ** script.js: the localStorage implementation *)
Module LocalTheme.

(** Lines 157-162:
<<
function updateIcon(isDark) {
  if (!toggleBtn) return;
  toggleBtn.innerHTML = isDark ? sun : moon;
}
>> *)
Definition updateIcon (isDark : bool) : JS () :=
  present <- Js.toggleBtn_truthy;;
  if negb present then ret ()
  else Js.toggleBtn_set_innerHTML (icon_of isDark).

(** Lines 146-153, the click listener. *)
Definition onClick : JS () :=
  _ <- Js.body_classList_toggle "dark-theme";;
  isDark <- Js.body_classList_contains "dark-theme";;
  _ <- Js.localStorage_setItem "theme" (theme_name isDark);;
  updateIcon isDark.

(** Lines 118-154.  The last branch of the chain only sets the icon;
    it does not touch the class list. *)
Definition initTheme : JS () :=
  savedTheme <- Js.localStorage_getItem "theme";;
  systemPrefersDark <- Js.mediaQuery_matches;;
  _ <- (if Js.strict_eq savedTheme "dark" then
          _ <- Js.body_classList_add "dark-theme";;
          updateIcon true
        else if Js.strict_eq savedTheme "light" then
          _ <- Js.body_classList_remove "dark-theme";;
          updateIcon false
        else if systemPrefersDark then
          _ <- Js.body_classList_add "dark-theme";;
          updateIcon true
        else
          updateIcon false);;
  present <- Js.toggleBtn_truthy;;
  when present (Js.toggleBtn_addEventListener LocalClick).

End LocalTheme.

(** ** part_000, last definition: the sessionStorage implementation *)
Module SessionTheme.

(** Lines 322-330:
<<
function applyTheme(isDark) {
  if (isDark) {
    body.classList.add('dark-theme');
    if (toggleBtn) toggleBtn.innerHTML = sun;
  } else {
    body.classList.remove('dark-theme');
    if (toggleBtn) toggleBtn.innerHTML = moon;
  }
}
>> *)
Definition applyTheme (isDark : bool) : JS () :=
  if isDark then
    _ <- Js.body_classList_add "dark-theme";;
    present <- Js.toggleBtn_truthy;;
    when present (Js.toggleBtn_set_innerHTML sun_icon)
  else
    _ <- Js.body_classList_remove "dark-theme";;
    present <- Js.toggleBtn_truthy;;
    when present (Js.toggleBtn_set_innerHTML moon_icon).

(** Lines 346-350, the listener on the media query; [e_matches] is
    [e.matches]. *)
Definition onChange (e_matches : bool) : JS () :=
  v <- Js.sessionStorage_getItem "theme";;
  when (negb (Js.truthy v)) (applyTheme e_matches).

(** Lines 354-362, the click listener. *)
Definition onClick : JS () :=
  isDarkNow <- Js.body_classList_contains "dark-theme";;
  let newMode := negb isDarkNow in
  _ <- applyTheme newMode;;
  Js.sessionStorage_setItem "theme" (theme_name newMode).

(** Lines 316-364. *)
Definition initTheme : JS () :=
  sessionPreference <- Js.sessionStorage_getItem "theme";;
  _ <- (if Js.strict_eq sessionPreference "dark" then applyTheme true
        else if Js.strict_eq sessionPreference "light" then applyTheme false
        else (m <- Js.mediaQuery_matches;; applyTheme m));;
  _ <- Js.mediaQuery_addEventListener SessionChange;;
  present <- Js.toggleBtn_truthy;;
  when present (Js.toggleBtn_addEventListener SessionClick).

End SessionTheme.

(** ** Events of the page *)

Inductive Impl := Local | Session.

Definition run_click (h : ClickHandler) : JS () :=
  match h with
  | LocalClick => LocalTheme.onClick
  | SessionClick => SessionTheme.onClick
  end.

Definition run_change (e_matches : bool) (h : ChangeHandler) : JS () :=
  match h with
  | SessionChange => SessionTheme.onChange e_matches
  end.

(** Listeners of one event run in the order they were added.  One that
    throws does not stop the ones after it; the first exception is what the
    dispatch reports. *)
Fixpoint dispatch {H} (run : H → JS ()) (hs : list H) : JS () :=
  match hs with
  | [] => ret ()
  | h :: hs' => λ w,
      let '(r, w1) := run h w in
      let '(r', w2) := dispatch run hs' w1 in
      (match r with inl _ => r' | inr e => inr e end, w2)
  end.

Inductive Event :=
  | PageLoad (i : Impl)              (* DOMContentLoaded, with one of the scripts *)
  | Click                            (* the user activates #themeToggle *)
  | SystemChange (e_matches : bool). (* the colour-scheme media query changes *)

Definition initTheme (i : Impl) : JS () :=
  match i with
  | Local => LocalTheme.initTheme
  | Session => SessionTheme.initTheme
  end.

(** A page without the control has nothing to click. *)
Definition fire (ev : Event) : JS () :=
  match ev with
  | PageLoad i => initTheme i
  | Click => λ w,
      match toggleBtn w with
      | Some b => dispatch run_click (onclick b) w
      | None => (inl (), w)
      end
  | SystemChange m => λ w,
      let w1 :=
        set_mediaQuery
          {| matches := m; onchange := onchange (mediaQuery w) |} w in
      dispatch (run_change m) (onchange (mediaQuery w)) w1
  end.

(** The operations of the component, as the specification lists them;
    [OpToggle] is the click listener itself. *)
Inductive Op :=
  | OpInit
  | OpApply (isDark : bool)
  | OpSystemChange (e_matches : bool)
  | OpToggle.

(** script.js has no [applyTheme]; its state-applying helper is
    [updateIcon].  It adds no listener to the media query either, so a
    colour-scheme change reaches no code of it. *)
Definition run_op (i : Impl) (o : Op) : JS () :=
  match i, o with
  | Local, OpInit => LocalTheme.initTheme
  | Local, OpApply b => LocalTheme.updateIcon b
  | Local, OpSystemChange _ => ret ()
  | Local, OpToggle => LocalTheme.onClick
  | Session, OpInit => SessionTheme.initTheme
  | Session, OpApply b => SessionTheme.applyTheme b
  | Session, OpSystemChange m => SessionTheme.onChange m
  | Session, OpToggle => SessionTheme.onClick
  end.

(** The storage area an implementation keeps the preference in. *)
Definition store (i : Impl) (w : World) : gmap string string :=
  match i with
  | Local => localStorage w
  | Session => sessionStorage w
  end.

(** ** Sample pages *)

Definition plain_button : Button := {| innerHTML := ""; onclick := [] |}.

Definition blank_page : World :=
  {| body := Some []; toggleBtn := Some plain_button;
     localStorage := ∅; sessionStorage := ∅;
     mediaQuery := {| matches := false; onchange := [] |} |}.

Example local_init_blank :
  LocalTheme.initTheme blank_page =
  (inl (),
   {| body := Some [];
      toggleBtn := Some {| innerHTML := moon_icon; onclick := [LocalClick] |};
      localStorage := ∅; sessionStorage := ∅;
      mediaQuery := {| matches := false; onchange := [] |} |}).
Proof. reflexivity. Qed.

Example session_init_dark :
  SessionTheme.initTheme
    (set_sessionStorage {[ "theme" := "dark" ]} blank_page) =
  (inl (),
   {| body := Some ["dark-theme"];
      toggleBtn := Some {| innerHTML := sun_icon; onclick := [SessionClick] |};
      localStorage := ∅; sessionStorage := {[ "theme" := "dark" ]};
      mediaQuery := {| matches := false; onchange := [SessionChange] |} |}).
Proof. reflexivity. Qed.

(** ** Facts about class lists and the literals *)

Lemma sun_moon_distinct : sun_icon ≠ moon_icon.
Proof. by vm_compute. Qed.

Lemma icon_of_inj b1 b2 : icon_of b1 = icon_of b2 → b1 = b2.
Proof. destruct b1, b2; vm_compute; congruence. Qed.

Lemma theme_name_inj b1 b2 : theme_name b1 = theme_name b2 → b1 = b2.
Proof. destruct b1, b2; vm_compute; congruence. Qed.

Lemma of_bool_negb b : of_bool (negb b) = opposite (of_bool b).
Proof. by destruct b. Qed.

Module ClassListFacts.
Import ClassList.

Lemma contains_true c cl : contains c cl = true ↔ c ∈ cl.
Proof. unfold contains. apply bool_decide_eq_true. Qed.

Lemma contains_false c cl : contains c cl = false ↔ c ∉ cl.
Proof. unfold contains. apply bool_decide_eq_false. Qed.

Lemma contains_add c cl : contains c (add c cl) = true.
Proof.
  unfold add. destruct (contains c cl) eqn:E; [done|].
  apply contains_true, elem_of_app. right. by apply list_elem_of_singleton.
Qed.

Lemma contains_remove c cl : contains c (remove c cl) = false.
Proof.
  apply contains_false. unfold remove.
  rewrite list_elem_of_filter. intros [Hne _]. by apply Hne.
Qed.

Lemma remove_absent c cl : contains c cl = false → remove c cl = cl.
Proof.
  rewrite contains_false. unfold remove. induction cl as [|x cl IH]; [done|].
  rewrite not_elem_of_cons. intros [Hne Hnot].
  rewrite filter_cons_True by done. f_equal. by apply IH.
Qed.

Lemma add_add c cl : add c (add c cl) = add c cl.
Proof. unfold add at 1. by rewrite contains_add. Qed.

Lemma remove_remove c cl : remove c (remove c cl) = remove c cl.
Proof. apply remove_absent, contains_remove. Qed.

Lemma remove_snoc c cl : remove c (cl ++ [c]) = remove c cl.
Proof.
  unfold remove. rewrite filter_app.
  rewrite (filter_cons_False _ c []) by (intros Hne; by apply Hne).
  by rewrite filter_nil, app_nil_r.
Qed.

Lemma toggle_result c cl : (toggle c cl).2 = negb (contains c cl).
Proof. unfold toggle. by destruct (contains c cl). Qed.

Lemma contains_toggle c cl :
  contains c (toggle c cl).1 = negb (contains c cl).
Proof.
  unfold toggle. destruct (contains c cl) eqn:E; simpl.
  - apply contains_remove.
  - apply contains_true, elem_of_app. right. by apply list_elem_of_singleton.
Qed.

(** Toggling twice gives back a list without the token as it was. *)
Lemma toggle_toggle_absent c cl :
  contains c cl = false → (toggle c (toggle c cl).1).1 = cl.
Proof.
  intros E. pose proof (contains_toggle c cl) as Ht.
  unfold toggle at 1. rewrite Ht, E. simpl.
  unfold toggle. rewrite E. simpl.
  rewrite remove_snoc. by apply remove_absent.
Qed.

End ClassListFacts.

(** ** Running statements *)

(** Unfolds a script down to tests on the page. *)
Ltac js_unfold :=
  unfold after, outcome, fire, initTheme, run_op, run_click, run_change, store,
    LocalTheme.initTheme, LocalTheme.onClick, LocalTheme.updateIcon,
    SessionTheme.initTheme, SessionTheme.onClick, SessionTheme.onChange,
    SessionTheme.applyTheme, when, bind, ret,
    Js.body_classList_add, Js.body_classList_remove, Js.body_classList_toggle,
    Js.body_classList_contains, Js.toggleBtn_truthy, Js.toggleBtn_set_innerHTML,
    Js.toggleBtn_addEventListener, Js.mediaQuery_matches,
    Js.mediaQuery_addEventListener, Js.localStorage_getItem,
    Js.localStorage_setItem, Js.sessionStorage_getItem,
    Js.sessionStorage_setItem, applied, icon,
    set_body, set_toggleBtn, set_localStorage, set_sessionStorage,
    set_mediaQuery in *;
  cbn [body toggleBtn localStorage sessionStorage mediaQuery matches onchange
       innerHTML onclick fst snd negb mbind option_bind fmap option_fmap
       option_map] in *.

Section apply_state.

(** [applyTheme] on a page with a body completes; the class list is the
    old one with the token added or removed, the control (if any) gets
    the matching icon, nothing else changes. *)
Lemma applyTheme_body (isDark : bool) (w : World) (cl : ClassList.t) :
  body w = Some cl →
  SessionTheme.applyTheme isDark w =
  (inl (),
   {| body := Some (if isDark then ClassList.add "dark-theme" cl
                    else ClassList.remove "dark-theme" cl);
      toggleBtn :=
        (λ b, {| innerHTML := icon_of isDark; onclick := onclick b |})
          <$> toggleBtn w;
      localStorage := localStorage w;
      sessionStorage := sessionStorage w;
      mediaQuery := mediaQuery w |}).
Proof.
  destruct w as [b tb ls ss mq]; cbn. intros ->.
  destruct isDark, tb; reflexivity.
Qed.

(** Without a body it throws before anything is written. *)
Lemma applyTheme_no_body (isDark : bool) (w : World) :
  body w = None → SessionTheme.applyTheme isDark w = (inr TypeError, w).
Proof.
  destruct w as [b tb ls ss mq]; cbn. intros ->. by destruct isDark.
Qed.

Lemma updateIcon_spec (isDark : bool) (w : World) :
  LocalTheme.updateIcon isDark w =
  (inl (),
   set_toggleBtn
     ((λ b, {| innerHTML := icon_of isDark; onclick := onclick b |})
        <$> toggleBtn w) w).
Proof. destruct w as [b [tb|] ls ss mq]; reflexivity. Qed.

End apply_state.

(** ** What each operation does on a page with a body *)

(** The boolean both [if] chains hand to their helper: the first test that
    succeeds decides, the media query is read last. *)
Definition chain_choice (saved : option string) (systemDark : bool) : bool :=
  if Js.strict_eq saved "dark" then true
  else if Js.strict_eq saved "light" then false
  else systemDark.

Lemma strict_eq_true v s : Js.strict_eq v s = true ↔ v = Some s.
Proof. unfold Js.strict_eq. apply bool_decide_eq_true. Qed.

Lemma strict_eq_false v s : Js.strict_eq v s = false ↔ v ≠ Some s.
Proof. unfold Js.strict_eq. apply bool_decide_eq_false. Qed.

Lemma chain_choice_dark sys : chain_choice (Some "dark") sys = true.
Proof. reflexivity. Qed.

Lemma chain_choice_light sys : chain_choice (Some "light") sys = false.
Proof. reflexivity. Qed.

Lemma chain_choice_absent sys : chain_choice None sys = sys.
Proof. reflexivity. Qed.

Lemma chain_choice_other s sys :
  s ≠ "dark" → s ≠ "light" → chain_choice (Some s) sys = sys.
Proof.
  intros Hd Hl. unfold chain_choice.
  assert (Js.strict_eq (Some s) "dark" = false) as ->
    by (apply strict_eq_false; congruence).
  assert (Js.strict_eq (Some s) "light" = false) as ->
    by (apply strict_eq_false; congruence).
  done.
Qed.

(** Adds the listener [h] to a button. *)
Definition listen (h : ClickHandler) (b : Button) : Button :=
  {| innerHTML := innerHTML b; onclick := onclick b ++ [h] |}.

(** Replaces the markup of a button. *)
Definition draw (isDark : bool) (b : Button) : Button :=
  {| innerHTML := icon_of isDark; onclick := onclick b |}.

Section with_body.

Variable w : World.
Variable cl : ClassList.t.
Hypothesis Hbody : body w = Some cl.

Let saved_local := localStorage w !! "theme".
Let saved_session := sessionStorage w !! "theme".
Let sys := matches (mediaQuery w).
Let dark_now := ClassList.contains "dark-theme" cl.

Lemma session_initTheme_body :
  SessionTheme.initTheme w =
  (inl (),
   {| body := Some (if chain_choice saved_session sys
                    then ClassList.add "dark-theme" cl
                    else ClassList.remove "dark-theme" cl);
      toggleBtn :=
        (λ b, listen SessionClick (draw (chain_choice saved_session sys) b))
          <$> toggleBtn w;
      localStorage := localStorage w;
      sessionStorage := sessionStorage w;
      mediaQuery := {| matches := sys;
                       onchange := onchange (mediaQuery w) ++ [SessionChange] |}
   |}).
Proof using Hbody.
  subst saved_local saved_session sys dark_now.
  destruct w as [b tb ls ss [m ch]]; cbn in *. subst b.
  unfold SessionTheme.initTheme, chain_choice, bind. cbn.
  destruct (Js.strict_eq (ss !! "theme") "dark"); [destruct tb; reflexivity|].
  destruct (Js.strict_eq (ss !! "theme") "light"); [destruct tb; reflexivity|].
  destruct m, tb; reflexivity.
Qed.

(** In script.js only three of the four branches touch the class list. *)
Lemma local_initTheme_body :
  LocalTheme.initTheme w =
  (inl (),
   {| body := Some (if Js.strict_eq saved_local "dark"
                    then ClassList.add "dark-theme" cl
                    else if Js.strict_eq saved_local "light"
                    then ClassList.remove "dark-theme" cl
                    else if sys then ClassList.add "dark-theme" cl
                    else cl);
      toggleBtn :=
        (λ b, listen LocalClick (draw (chain_choice saved_local sys) b))
          <$> toggleBtn w;
      localStorage := localStorage w;
      sessionStorage := sessionStorage w;
      mediaQuery := mediaQuery w |}).
Proof using Hbody.
  subst saved_local saved_session sys dark_now.
  destruct w as [b tb ls ss [m ch]]; cbn in *. subst b.
  unfold LocalTheme.initTheme, chain_choice, bind. cbn.
  destruct (Js.strict_eq (ls !! "theme") "dark"); [destruct tb; reflexivity|].
  destruct (Js.strict_eq (ls !! "theme") "light"); [destruct tb; reflexivity|].
  destruct m, tb; reflexivity.
Qed.

Lemma session_onClick_body :
  SessionTheme.onClick w =
  (inl (),
   {| body := Some (if negb dark_now then ClassList.add "dark-theme" cl
                    else ClassList.remove "dark-theme" cl);
      toggleBtn := draw (negb dark_now) <$> toggleBtn w;
      localStorage := localStorage w;
      sessionStorage :=
        <["theme" := theme_name (negb dark_now)]> (sessionStorage w);
      mediaQuery := mediaQuery w |}).
Proof using Hbody.
  subst saved_local saved_session sys dark_now.
  destruct w as [b tb ls ss [m ch]]; cbn in *. subst b.
  unfold SessionTheme.onClick, bind. cbn.
  destruct (ClassList.contains "dark-theme" cl), tb; reflexivity.
Qed.

Lemma local_onClick_body :
  LocalTheme.onClick w =
  (inl (),
   {| body := Some (ClassList.toggle "dark-theme" cl).1;
      toggleBtn := draw (negb dark_now) <$> toggleBtn w;
      localStorage :=
        <["theme" := theme_name (negb dark_now)]> (localStorage w);
      sessionStorage := sessionStorage w;
      mediaQuery := mediaQuery w |}).
Proof using Hbody.
  subst saved_local saved_session sys dark_now.
  destruct w as [b tb ls ss [m ch]]; cbn in *. subst b.
  unfold LocalTheme.onClick, bind, Js.body_classList_toggle. cbn.
  pose proof (ClassListFacts.contains_toggle "dark-theme" cl) as Hc.
  destruct (ClassList.toggle "dark-theme" cl) as [cl' r] eqn:Et.
  cbn in *. unfold Js.body_classList_contains. cbn. rewrite Hc.
  destruct tb; reflexivity.
Qed.

Lemma session_onChange_body (m : bool) :
  SessionTheme.onChange m w =
  if Js.truthy saved_session then (inl (), w)
  else SessionTheme.applyTheme m w.
Proof.
  subst saved_local saved_session sys dark_now.
  unfold SessionTheme.onChange, bind, Js.sessionStorage_getItem, when.
  by destruct (Js.truthy (sessionStorage w !! "theme")).
Qed.

End with_body.

(** ** Properties of the component *)

Definition is_dark (s : ThemeState) : bool :=
  match s with Dark => true | Light => false end.

(** The stored string that stands for a theme. *)
Definition stored_name (s : ThemeState) : string :=
  match s with Dark => "dark" | Light => "light" end.

Lemma of_bool_is_dark s : of_bool (is_dark s) = s.
Proof. by destruct s. Qed.

Lemma theme_name_of_bool b : theme_name b = stored_name (of_bool b).
Proof. by destruct b. Qed.

Lemma applied_body w cl :
  body w = Some cl →
  applied w = Some (of_bool (ClassList.contains "dark-theme" cl)).
Proof. unfold applied. by intros ->. Qed.

(** The applied theme after the token was added or removed. *)
Lemma contains_add_remove (b : bool) (cl : ClassList.t) :
  ClassList.contains "dark-theme"
    (if b then ClassList.add "dark-theme" cl
     else ClassList.remove "dark-theme" cl) = b.
Proof.
  destruct b.
  - apply ClassListFacts.contains_add.
  - apply ClassListFacts.contains_remove.
Qed.

(** A page with the dark class in its markup, no saved preference and a
    light system. *)
Definition markup_dark_page : World := set_body (Some ["dark-theme"]) blank_page.

(** A page without the toggle control whose session prefers dark. *)
Definition no_toggle_page : World :=
  set_toggleBtn None (set_sessionStorage {[ "theme" := "dark" ]} blank_page).

(** A document without a body. *)
Definition no_body_page : World := set_body None blank_page.

(** C6.  [applyTheme] is idempotent: applying a theme a second time gives
    the same outcome and leaves the whole page, so in particular the class
    list of the body and the icon of the control, as the first application
    left it.  The same holds for [updateIcon], the helper of script.js. *)
Theorem applyState_idempotent (s : ThemeState) (w : World) :
  let apply := SessionTheme.applyTheme (is_dark s) in
  let update := LocalTheme.updateIcon (is_dark s) in
  (apply (after apply w) = apply w ∧
   body (after apply (after apply w)) = body (after apply w) ∧
   icon (after apply (after apply w)) = icon (after apply w)) ∧
  update (after update w) = update w.
Proof.
  intros apply update. split; [|].
  - assert (apply (after apply w) = apply w) as Heq.
    { subst apply. unfold after. destruct (body w) as [cl|] eqn:Hb.
      + rewrite (applyTheme_body _ w cl Hb). cbn [snd].
        erewrite applyTheme_body by reflexivity. cbn.
        destruct s; cbn;
          rewrite ?ClassListFacts.add_add, ?ClassListFacts.remove_remove;
          destruct (toggleBtn w); reflexivity.
      + rewrite (applyTheme_no_body _ w Hb). cbn [snd].
        by apply applyTheme_no_body. }
    split; [done|].
    change (after apply (after apply w)) with (apply (after apply w)).2.
    by rewrite Heq.
  - subst update. unfold after. rewrite !updateIcon_spec. cbn.
    destruct (toggleBtn w); reflexivity.
Qed.

Lemma icon_sun_iff (b : bool) : icon_of b = sun_icon ↔ b = true.
Proof. destruct b; vm_compute; split; congruence. Qed.

Lemma icon_moon_iff (b : bool) : icon_of b = moon_icon ↔ b = false.
Proof. destruct b; vm_compute; split; congruence. Qed.

(** C9.  On a page with a body and a toggle control, applying a theme
    leaves that theme applied and the control showing the sun exactly when
    the page is dark and the moon exactly when it is light.  For script.js
    the same relation holds between the argument of [updateIcon] and the
    icon, and between the applied theme and the icon after a click. *)
Theorem icon_shows_opposite_action
    (s : ThemeState) (w : World) (cl : ClassList.t) (btn : Button) :
  body w = Some cl →
  toggleBtn w = Some btn →
  (let w' := after (SessionTheme.applyTheme (is_dark s)) w in
   applied w' = Some s ∧
   (icon w' = Some sun_icon ↔ applied w' = Some Dark) ∧
   (icon w' = Some moon_icon ↔ applied w' = Some Light)) ∧
  (let w' := after (LocalTheme.updateIcon (is_dark s)) w in
   (icon w' = Some sun_icon ↔ s = Dark) ∧
   (icon w' = Some moon_icon ↔ s = Light)) ∧
  (let w' := after LocalTheme.onClick w in
   (icon w' = Some sun_icon ↔ applied w' = Some Dark) ∧
   (icon w' = Some moon_icon ↔ applied w' = Some Light)).
Proof.
  intros Hb Ht. repeat split.
  1-5: unfold after; rewrite (applyTheme_body _ w cl Hb); cbn [snd];
       unfold applied, icon; cbn; rewrite ?Ht, ?contains_add_remove; cbn;
       rewrite ?of_bool_is_dark; try done.
  1-4: destruct s; vm_compute; congruence.
  1-4: unfold after; rewrite updateIcon_spec; unfold icon; cbn; rewrite Ht;
       destruct s; vm_compute; congruence.
  all: unfold after; rewrite (local_onClick_body w cl Hb); cbn [snd];
       unfold applied, icon; cbn; rewrite Ht;
       rewrite ClassListFacts.contains_toggle;
       destruct (ClassList.contains "dark-theme" cl); vm_compute; congruence.
Qed.

Lemma icon_shows_opposite_action_witness :
  icon (after (SessionTheme.applyTheme true) blank_page) = Some sun_icon ↔
  applied (after (SessionTheme.applyTheme true) blank_page) = Some Dark.
Proof.
  exact (proj1 (proj2 (proj1
    (icon_shows_opposite_action Dark blank_page [] plain_button
       eq_refl eq_refl)))).
Defined.

(** C2.  On a page with a body, one run of the click listener completes,
    turns the applied theme into the other one, and leaves under the key
    ["theme"] of the implementation's storage area the name of the theme
    now applied. *)
Theorem toggle_flips_and_stores (i : Impl) (w : World) (cl : ClassList.t) :
  body w = Some cl →
  let w' := after (run_op i OpToggle) w in
  outcome (run_op i OpToggle) w = inl () ∧
  applied w' = opposite <$> applied w ∧
  store i w' !! "theme" = stored_name <$> applied w'.
Proof.
  intros Hb w'. subst w'. unfold after, outcome.
  rewrite (applied_body w cl Hb).
  destruct i; cbn [run_op store].
  - rewrite (local_onClick_body w cl Hb). cbn [fst snd localStorage].
    erewrite applied_body by reflexivity.
    rewrite ClassListFacts.contains_toggle, lookup_insert_eq. cbn.
    by rewrite of_bool_negb, theme_name_of_bool, of_bool_negb.
  - rewrite (session_onClick_body w cl Hb). cbn [fst snd sessionStorage].
    erewrite applied_body by reflexivity.
    rewrite contains_add_remove, lookup_insert_eq. cbn.
    by rewrite of_bool_negb, theme_name_of_bool, of_bool_negb.
Qed.

Lemma toggle_flips_and_stores_witness :
  applied (after (run_op Session OpToggle) blank_page) = Some Dark ∧
  sessionStorage (after (run_op Session OpToggle) blank_page) !! "theme"
    = Some "dark".
Proof.
  pose proof (toggle_flips_and_stores Session blank_page [] eq_refl)
    as (_ & Ha & Hs).
  split; [exact Ha | exact Hs].
Defined.

(** C7.  From a page whose applied theme is light, whatever is stored, two
    runs of the click listener in a row both complete, leave the applied
    theme light and the stored value ["light"]. *)
Theorem toggle_twice_from_light (i : Impl) (w : World) :
  applied w = Some Light →
  let toggle := run_op i OpToggle in
  let w2 := after toggle (after toggle w) in
  outcome toggle w = inl () ∧
  outcome toggle (after toggle w) = inl () ∧
  applied (after toggle w) = Some Dark ∧
  applied w2 = Some Light ∧
  store i w2 !! "theme" = Some "light".
Proof.
  intros Ha toggle w2.
  destruct (body w) as [cl|] eqn:Hb;
    [|by unfold applied in Ha; rewrite Hb in Ha].
  destruct (toggle_flips_and_stores i w cl Hb) as (Ho1 & Ha1 & _).
  fold toggle in Ho1, Ha1. rewrite Ha in Ha1. cbn in Ha1.
  assert (is_Some (body (after toggle w))) as [cl1 Hb1].
  { unfold applied in Ha1. destruct (body (after toggle w)); [eauto|done]. }
  destruct (toggle_flips_and_stores i (after toggle w) cl1 Hb1)
    as (Ho2 & Ha2 & Hs2).
  fold toggle in Ho2, Ha2, Hs2. fold w2 in Ha2, Hs2.
  rewrite Ha1 in Ha2. cbn in Ha2. rewrite Ha2 in Hs2.
  done.
Qed.

Lemma toggle_twice_from_light_witness :
  applied (after (run_op Local OpToggle)
             (after (run_op Local OpToggle) blank_page)) = Some Light ∧
  localStorage (after (run_op Local OpToggle)
                  (after (run_op Local OpToggle) blank_page)) !! "theme"
    = Some "light".
Proof.
  pose proof (toggle_twice_from_light Local blank_page eq_refl)
    as (_ & _ & _ & Ha & Hs).
  split; [exact Ha | exact Hs].
Defined.

(** *** The storage areas *)

(** Case analysis on every test a script makes. *)
Ltac js_cases :=
  repeat first
    [ progress cbn [fst snd body toggleBtn localStorage sessionStorage
                    mediaQuery matches onchange innerHTML onclick negb]
    | match goal with
      | |- context [ClassList.toggle ?c ?cl] =>
          destruct (ClassList.toggle c cl) as [? ?]
      | |- context [if ?b then _ else _] => destruct b
      | |- context [match ?o with Some _ => _ | None => _ end] => destruct o
      end ].

(** What a run of an operation can do to the two storage areas: nothing,
    except that the click listener of an implementation may put a theme
    name under ["theme"] in that implementation's area. *)
Lemma stores_after (i : Impl) (o : Op) (w : World) :
  let w' := after (run_op i o) w in
  (localStorage w' = localStorage w ∨
   (i = Local ∧ o = OpToggle ∧
    ∃ b, localStorage w' = <["theme" := theme_name b]> (localStorage w))) ∧
  (sessionStorage w' = sessionStorage w ∨
   (i = Session ∧ o = OpToggle ∧
    ∃ b, sessionStorage w' = <["theme" := theme_name b]> (sessionStorage w))).
Proof.
  destruct w as [b tb ls ss [m ch]].
  destruct i, o; js_unfold; js_cases; eauto 10.
Qed.

(** C4.  Of the operations of either implementation, only the click
    listener writes to storage: initialisation, the state-applying helper
    and the colour-scheme listener leave both areas as they were.  No
    operation removes a key, none touches a key other than ["theme"], and
    on a page with a body the click listener does leave an entry. *)
Theorem only_toggle_writes_store (i : Impl) (o : Op) (w : World) :
  let w' := after (run_op i o) w in
  (o ≠ OpToggle →
   localStorage w' = localStorage w ∧ sessionStorage w' = sessionStorage w) ∧
  (dom (localStorage w) ⊆ dom (localStorage w') ∧
   dom (sessionStorage w) ⊆ dom (sessionStorage w')) ∧
  (∀ k, k ≠ "theme" →
        localStorage w' !! k = localStorage w !! k ∧
        sessionStorage w' !! k = sessionStorage w !! k) ∧
  (is_Some (body w) →
   is_Some (store i (after (run_op i OpToggle) w) !! "theme")).
Proof.
  intros w'. destruct (stores_after i o w) as [Hl Hs]. fold w' in Hl, Hs.
  repeat split.
  - destruct Hl as [?|(_ & ? & _)]; done.
  - destruct Hs as [?|(_ & ? & _)]; done.
  - destruct Hl as [->|(_ & _ & b & ->)]; [done|].
    rewrite dom_insert_L. apply union_subseteq_r.
  - destruct Hs as [->|(_ & _ & b & ->)]; [done|].
    rewrite dom_insert_L. apply union_subseteq_r.
  - destruct Hl as [->|(_ & _ & b & ->)]; [done|]. by rewrite lookup_insert_ne.
  - destruct Hs as [->|(_ & _ & b & ->)]; [done|]. by rewrite lookup_insert_ne.
  - intros [cl Hb]. unfold after. destruct i; cbn [run_op store].
    + rewrite (local_onClick_body w cl Hb). cbn.
      rewrite lookup_insert_eq. eauto.
    + rewrite (session_onClick_body w cl Hb). cbn.
      rewrite lookup_insert_eq. eauto.
Qed.

Lemma only_toggle_writes_store_witness :
  localStorage (after (run_op Local OpInit) blank_page) = ∅ ∧
  sessionStorage (after (run_op Local OpInit) blank_page) = ∅ ∧
  is_Some (sessionStorage (after (run_op Session OpToggle) blank_page)
             !! "theme").
Proof.
  pose proof (only_toggle_writes_store Local OpInit blank_page)
    as (Hf & _ & _ & _).
  pose proof (only_toggle_writes_store Session OpToggle blank_page)
    as (_ & _ & _ & Hw).
  destruct (Hf ltac:(discriminate)) as [Hl Hs].
  split; [exact Hl | split; [exact Hs | apply Hw; cbn; eauto]].
Defined.

(** *** The colour-scheme listener *)

(** C3.  For either value the change event carries: when nothing is stored
    under ["theme"] in the session area, the listener of part_000 completes
    on a page with a body and leaves dark applied for [true] and light for
    [false]; when a value is stored there (["dark"], ["light"] or any other
    non-empty string) the listener leaves the page exactly as it was. *)
Theorem system_change_respects_stored (m : bool) (w : World) :
  (sessionStorage w !! "theme" = None →
   is_Some (body w) →
   outcome (SessionTheme.onChange m) w = inl () ∧
   applied (after (SessionTheme.onChange m) w) = Some (of_bool m)) ∧
  (∀ s, sessionStorage w !! "theme" = Some s → s ≠ "" →
        SessionTheme.onChange m w = (inl (), w)).
Proof.
  split.
  - intros Hs [cl Hb]. unfold after, outcome.
    rewrite session_onChange_body, Hs. cbn [Js.truthy].
    rewrite (applyTheme_body m w cl Hb). cbn [fst snd]. split; [done|].
    erewrite applied_body by reflexivity. by rewrite contains_add_remove.
  - intros s Hs Hne. rewrite session_onChange_body, Hs. cbn [Js.truthy].
    by rewrite bool_decide_eq_false_2.
Qed.

Lemma system_change_respects_stored_witness :
  applied (after (SessionTheme.onChange true) blank_page) = Some Dark ∧
  SessionTheme.onChange true
    (set_sessionStorage {[ "theme" := "light" ]} blank_page) =
  (inl (), set_sessionStorage {[ "theme" := "light" ]} blank_page).
Proof.
  split.
  - apply (proj1 (system_change_respects_stored true blank_page));
      [reflexivity | cbn; eauto].
  - apply (proj2 (system_change_respects_stored true
             (set_sessionStorage {[ "theme" := "light" ]} blank_page))
             "light"); [reflexivity | discriminate].
Defined.

(** The guard of the listener is a truth test, not a test for [null]: a
    stored empty string counts as no preference. *)
Lemma onChange_empty_string (m : bool) (w : World) :
  sessionStorage w !! "theme" = Some "" →
  SessionTheme.onChange m w = SessionTheme.applyTheme m w.
Proof. intros Hs. by rewrite session_onChange_body, Hs. Qed.

(** *** Dispatching an event to its listeners *)

Lemma dispatch_cons {H} (run : H → JS ()) (h : H) (hs : list H) (w : World) :
  after (dispatch run (h :: hs)) w = after (dispatch run hs) (after (run h) w) ∧
  (outcome (run h) w = inl () →
   outcome (dispatch run (h :: hs)) w
     = outcome (dispatch run hs) (after (run h) w)).
Proof.
  unfold after, outcome. cbn [dispatch].
  destruct (run h w) as [r w1]. cbn [fst snd].
  destruct (dispatch run hs w1) as [r' w2]. cbn [fst snd].
  split; [done|]. by intros ->.
Qed.

(** A property every listener keeps while completing is kept by the whole
    dispatch, which then completes too. *)
Lemma dispatch_invariant {H} (run : H → JS ()) (I : World → Prop) :
  (∀ h w, I w → outcome (run h) w = inl () ∧ I (after (run h) w)) →
  ∀ hs w, I w →
    outcome (dispatch run hs) w = inl () ∧ I (after (dispatch run hs) w).
Proof.
  intros Hstep hs. induction hs as [|h hs IH]; intros w Hw.
  - by split.
  - destruct (Hstep h w Hw) as [Ho Hi].
    destruct (dispatch_cons run h hs w) as [Ha Hout].
    rewrite Ha, (Hout Ho). by apply IH.
Qed.

(** The page has no toggle control, has a body, and its storage areas hold
    [ls] and [ss]. *)
Definition bare (ls ss : gmap string string) (w : World) : Prop :=
  toggleBtn w = None ∧ is_Some (body w) ∧
  localStorage w = ls ∧ sessionStorage w = ss.

Lemma onChange_bare ls ss (m : bool) (w : World) :
  bare ls ss w →
  outcome (SessionTheme.onChange m) w = inl () ∧
  bare ls ss (after (SessionTheme.onChange m) w).
Proof.
  intros (Ht & [cl Hb] & Hl & Hs). unfold after, outcome.
  rewrite session_onChange_body.
  destruct (Js.truthy (sessionStorage w !! "theme")).
  - cbn. unfold bare. eauto.
  - rewrite (applyTheme_body m w cl Hb). cbn. unfold bare. cbn.
    rewrite Ht. eauto.
Qed.

Lemma initTheme_bare ls ss (i : Impl) (w : World) :
  bare ls ss w →
  outcome (initTheme i) w = inl () ∧ bare ls ss (after (initTheme i) w).
Proof.
  intros (Ht & [cl Hb] & Hl & Hs). unfold after, outcome.
  destruct i; cbn [initTheme].
  - rewrite (local_initTheme_body w cl Hb). cbn. unfold bare. cbn.
    rewrite Ht. eauto.
  - rewrite (session_initTheme_body w cl Hb). cbn. unfold bare. cbn.
    rewrite Ht. eauto.
Qed.

Lemma fire_bare ls ss (ev : Event) (w : World) :
  bare ls ss w →
  outcome (fire ev) w = inl () ∧ bare ls ss (after (fire ev) w).
Proof.
  intros Hw. destruct ev as [i| |m]; cbn [fire].
  - by apply initTheme_bare.
  - destruct Hw as (Ht & ?). unfold after, outcome. rewrite Ht. cbn.
    unfold bare. eauto.
  - apply (dispatch_invariant (run_change m) (bare ls ss)).
    + intros [] w0. apply onChange_bare.
    + destruct Hw as (Ht & Hb & Hl & Hs). unfold bare. eauto.
Qed.

(** script.js adds no listener to the media query. *)
Lemma local_init_no_change_listener (w : World) :
  mediaQuery (after LocalTheme.initTheme w) = mediaQuery w.
Proof.
  destruct w as [b tb ls ss [m ch]]. js_unfold. js_cases; reflexivity.
Qed.

(** part_000 adds its listener whenever the body exists, and a change
    event on a freshly loaded page runs exactly that listener. *)
Lemma session_init_change_listener (w : World) (m : bool) :
  is_Some (body w) →
  onchange (mediaQuery w) = [] →
  let w1 := after SessionTheme.initTheme w in
  onchange (mediaQuery w1) = [SessionChange] ∧
  after (fire (SystemChange m)) w1 =
  after (SessionTheme.onChange m)
    (set_mediaQuery {| matches := m; onchange := [SessionChange] |} w1).
Proof.
  intros [cl Hb] Hch w1. subst w1. unfold after.
  rewrite (session_initTheme_body w cl Hb). cbn [snd mediaQuery onchange].
  rewrite Hch. split; [done|]. cbn [fire mediaQuery onchange app].
  cbn [dispatch run_change].
  match goal with |- context [SessionTheme.onChange m ?x] =>
    destruct (SessionTheme.onChange m x) as [r w2] end.
  reflexivity.
Qed.

(** *** Pages that lack an element *)

(** The toggle control is missing and both areas hold ["dark"]. *)
Definition dark_no_toggle_page : World :=
  set_localStorage {[ "theme" := "dark" ]} no_toggle_page.

(** C5, as stated, fails.  On a page without the toggle control page load
    is not a no-op: either implementation turns a light page dark.  And on
    a document without a body page load throws. *)
Lemma absent_element_not_noop :
  (toggleBtn dark_no_toggle_page = None ∧
   applied dark_no_toggle_page = Some Light ∧
   ∀ i, applied (after (fire (PageLoad i)) dark_no_toggle_page) = Some Dark) ∧
  (body no_body_page = None ∧
   outcome (fire (PageLoad Session)) no_body_page = inr TypeError).
Proof.
  split; [split; [reflexivity | split; [reflexivity |]] | split; reflexivity].
  intros []; reflexivity.
Qed.

(** C5, amended.  On a page that has a body but no toggle control, every
    event (page load with either script, a click, a colour-scheme change
    with whatever listeners are attached) is handled without an exception,
    the control stays absent, so no icon is written and no click listener
    attached, both storage areas stay as they were, and a click changes
    nothing at all.  The class list of the body may change. *)
Theorem absent_toggle_is_safe (ev : Event) (w : World) :
  toggleBtn w = None →
  is_Some (body w) →
  let w' := after (fire ev) w in
  outcome (fire ev) w = inl () ∧
  toggleBtn w' = None ∧
  is_Some (body w') ∧
  localStorage w' = localStorage w ∧
  sessionStorage w' = sessionStorage w ∧
  (ev = Click → w' = w).
Proof.
  intros Ht Hb w'.
  destruct (fire_bare (localStorage w) (sessionStorage w) ev w)
    as (Ho & Ht' & Hb' & Hl & Hs); [by unfold bare|].
  fold w' in Ht', Hb', Hl, Hs. repeat split; try done.
  intros ->. subst w'. unfold after. cbn [fire]. by rewrite Ht.
Qed.

Lemma absent_toggle_is_safe_witness :
  outcome (fire (PageLoad Session)) no_toggle_page = inl () ∧
  toggleBtn (after (fire (PageLoad Session)) no_toggle_page) = None ∧
  sessionStorage (after (fire (PageLoad Session)) no_toggle_page)
    = {[ "theme" := "dark" ]}.
Proof.
  pose proof (absent_toggle_is_safe (PageLoad Session) no_toggle_page
                eq_refl (ex_intro _ [] eq_refl))
    as (Ho & Ht & _ & _ & Hs & _).
  split; [exact Ho | split; [exact Ht | exact Hs]].
Defined.

(** *** Initial resolution *)

Definition set_store (i : Impl) (st : gmap string string) (w : World) : World :=
  match i with
  | Local => set_localStorage st w
  | Session => set_sessionStorage st w
  end.

(** The condition under which the specification resolves to dark. *)
Definition resolves_dark (saved : option string) (systemDark : bool) : Prop :=
  saved = Some "dark" ∨ (saved = None ∧ systemDark = true).

(** With a stored string other than ["dark"] and ["light"], page load
    ends the same way and leaves the same body, control and media query as
    on the page with the key removed, and does not touch the stored
    string. *)
Lemma malformed_as_absent_frame (i : Impl) (s : string) (w : World) :
  s ≠ "dark" →
  s ≠ "light" →
  let w_bad := set_store i (<["theme" := s]> (store i w)) w in
  let w_none := set_store i (delete "theme" (store i w)) w in
  (outcome (initTheme i) w_bad = outcome (initTheme i) w_none ∧
   body (after (initTheme i) w_bad) = body (after (initTheme i) w_none) ∧
   toggleBtn (after (initTheme i) w_bad)
     = toggleBtn (after (initTheme i) w_none) ∧
   mediaQuery (after (initTheme i) w_bad)
     = mediaQuery (after (initTheme i) w_none)) ∧
  store i (after (initTheme i) w_bad) = store i w_bad ∧
  (is_Some (body w) →
   outcome (initTheme i) w_bad = inl () ∧
   (matches (mediaQuery w) = true →
    applied (after (initTheme i) w_bad) = Some Dark) ∧
   (i = Session →
    applied (after (initTheme i) w_bad)
      = Some (of_bool (matches (mediaQuery w))))).
Proof.
  intros Hd Hl w_bad w_none. subst w_bad w_none.
  assert (∀ v : option string, v = Some s ∨ v = None →
            Js.strict_eq v "dark" = false ∧ Js.strict_eq v "light" = false)
    as Hmiss.
  { intros v [->| ->]; split; apply strict_eq_false; congruence. }
  destruct w as [b tb ls ss [m ch]].
  destruct i; js_unfold; cbn [set_store store set_localStorage
    set_sessionStorage body toggleBtn localStorage sessionStorage mediaQuery];
    rewrite lookup_insert_eq, lookup_delete_eq;
    destruct (Hmiss (Some s) (or_introl eq_refl)) as [-> ->];
    destruct (Hmiss None (or_intror eq_refl)) as [-> ->];
    destruct b as [cl|], tb as [btn|], m; cbn;
    rewrite ?ClassListFacts.contains_add, ?ClassListFacts.contains_remove;
    repeat split; try done; try (by intros [? ?]).
Qed.

(** The page that page load leaves when the stored string is neither
    theme name: the system preference [sys] decides.  A dark system adds
    the class; a light system removes it in part_000 and leaves the class
    list as it is in script.js.  The control, if there is one, gets the
    icon for [sys] and the script's click listener. *)
Lemma malformed_falls_back (i : Impl) (s : string) (w : World) (cl : ClassList.t) :
  s ≠ "dark" →
  s ≠ "light" →
  body w = Some cl →
  let w_bad := set_store i (<["theme" := s]> (store i w)) w in
  let sys := matches (mediaQuery w) in
  body (after (initTheme i) w_bad) =
    Some (if sys then ClassList.add "dark-theme" cl
          else match i with
               | Local => cl
               | Session => ClassList.remove "dark-theme" cl
               end) ∧
  toggleBtn (after (initTheme i) w_bad) =
    (λ b, listen (match i with Local => LocalClick | Session => SessionClick end)
                 (draw sys b)) <$> toggleBtn w.
Proof.
  intros Hd Hl Hb w_bad sys. subst w_bad sys. unfold after.
  destruct i; cbn [initTheme set_store store].
  - erewrite local_initTheme_body by (cbn; exact Hb).
    cbn [snd body toggleBtn localStorage set_localStorage mediaQuery].
    rewrite lookup_insert_eq, (chain_choice_other s _ Hd Hl).
    rewrite (proj2 (strict_eq_false (Some s) "dark")) by congruence.
    rewrite (proj2 (strict_eq_false (Some s) "light")) by congruence.
    done.
  - erewrite session_initTheme_body by (cbn; exact Hb).
    cbn [snd body toggleBtn sessionStorage set_sessionStorage mediaQuery].
    rewrite lookup_insert_eq, (chain_choice_other s _ Hd Hl).
    by destruct (matches (mediaQuery w)).
Qed.

(** C8.  With a stored string other than ["dark"] and ["light"], page
    load ends the same way and leaves the same body, control and media
    query as on the page with the key removed; it does not touch the stored
    string.  On a page with a body it completes and the system preference
    decides, in both scripts and for both values of the preference: the
    control gets the icon for the system preference (sun for dark, moon for
    light) and the script's click listener; a dark system adds the class; a
    light system removes the class in part_000 and leaves the class list as
    it is in script.js (the branch that sets only the icon).  So on a body
    that does not carry the dark class the applied theme is the system's in
    both scripts, and in part_000 on every body. *)
Theorem malformed_storage_as_absent (i : Impl) (s : string) (w : World) :
  s ≠ "dark" →
  s ≠ "light" →
  let w_bad := set_store i (<["theme" := s]> (store i w)) w in
  let w_none := set_store i (delete "theme" (store i w)) w in
  (outcome (initTheme i) w_bad = outcome (initTheme i) w_none ∧
   body (after (initTheme i) w_bad) = body (after (initTheme i) w_none) ∧
   toggleBtn (after (initTheme i) w_bad)
     = toggleBtn (after (initTheme i) w_none) ∧
   mediaQuery (after (initTheme i) w_bad)
     = mediaQuery (after (initTheme i) w_none)) ∧
  store i (after (initTheme i) w_bad) = store i w_bad ∧
  (is_Some (body w) →
   outcome (initTheme i) w_bad = inl () ∧
   (matches (mediaQuery w) = true →
    applied (after (initTheme i) w_bad) = Some Dark) ∧
   (i = Session →
    applied (after (initTheme i) w_bad)
      = Some (of_bool (matches (mediaQuery w))))) ∧
  (∀ cl, body w = Some cl →
     let sys := matches (mediaQuery w) in
     body (after (initTheme i) w_bad) =
       Some (if sys then ClassList.add "dark-theme" cl
             else match i with
                  | Local => cl
                  | Session => ClassList.remove "dark-theme" cl
                  end) ∧
     toggleBtn (after (initTheme i) w_bad) =
       (λ b, listen (match i with
                     | Local => LocalClick
                     | Session => SessionClick
                     end) (draw sys b)) <$> toggleBtn w ∧
     icon (after (initTheme i) w_bad) = ((λ _, icon_of sys) <$> toggleBtn w) ∧
     (ClassList.contains "dark-theme" cl = false →
      applied (after (initTheme i) w_bad) = Some (of_bool sys))).
Proof.
  intros Hd Hl w_bad w_none.
  destruct (malformed_as_absent_frame i s w Hd Hl) as (Hsame & Hstore & Hok).
  fold w_bad w_none in Hsame, Hstore, Hok.
  split_and!; [apply Hsame..|done|done|].
  intros cl Hb sys.
  destruct (malformed_falls_back i s w cl Hd Hl Hb) as [Hbody Hbtn].
  fold w_bad sys in Hbody, Hbtn. split_and!; [done|done| |].
  - unfold icon. rewrite Hbtn. by destruct (toggleBtn w).
  - intros Hlight. unfold applied. rewrite Hbody. cbn. f_equal.
    destruct sys.
    + by rewrite ClassListFacts.contains_add.
    + destruct i; [by rewrite Hlight|].
      by rewrite ClassListFacts.contains_remove.
Qed.

Lemma malformed_storage_as_absent_witness :
  applied (after (initTheme Session)
             (set_store Session
                (<["theme" := "blue"]> (store Session blank_page)) blank_page))
  = Some Light ∧
  icon (after (initTheme Local)
          (set_store Local
             (<["theme" := "blue"]> (store Local blank_page)) blank_page))
  = Some moon_icon.
Proof.
  split.
  - pose proof (malformed_storage_as_absent Session "blue" blank_page
                  ltac:(discriminate) ltac:(discriminate)) as (_ & _ & H & _).
    destruct (H (ex_intro _ [] eq_refl)) as (_ & _ & Hs).
    exact (Hs eq_refl).
  - pose proof (malformed_storage_as_absent Local "blue" blank_page
                  ltac:(discriminate) ltac:(discriminate)) as (_ & _ & _ & H).
    destruct (H [] eq_refl) as (_ & _ & Hi & _).
    exact Hi.
Defined.

Lemma chain_choice_resolves (saved : option string) (systemDark : bool) :
  saved ∈ [None; Some "dark"; Some "light"] →
  chain_choice saved systemDark = true ↔ resolves_dark saved systemDark.
Proof.
  intros Hdom. unfold resolves_dark.
  repeat (apply elem_of_cons in Hdom as [->|Hdom]); [| | |by inversion Hdom].
  - rewrite chain_choice_absent. split; [eauto|]. by intros [?|[_ ?]].
  - rewrite chain_choice_dark. split; [eauto|done].
  - rewrite chain_choice_light. split; [done|]. by intros [?|[? _]].
Qed.

(** Page load applies the choice of the chain.  In script.js the branch
    for "nothing stored, light system" leaves the class list alone, so
    there the page is light only if it was light. *)
Lemma initTheme_applied (i : Impl) (w : World) (cl : ClassList.t) :
  body w = Some cl →
  (i = Local →
   store i w !! "theme" ≠ Some "dark" → store i w !! "theme" ≠ Some "light" →
   matches (mediaQuery w) = false →
   ClassList.contains "dark-theme" cl = false) →
  outcome (initTheme i) w = inl () ∧
  applied (after (initTheme i) w)
    = Some (of_bool (chain_choice (store i w !! "theme")
                                  (matches (mediaQuery w)))).
Proof.
  intros Hb Hmarkup. unfold after, outcome.
  destruct i; cbn [initTheme store] in *.
  - rewrite (local_initTheme_body w cl Hb). cbn [fst snd]. split; [done|].
    erewrite applied_body by reflexivity. do 2 f_equal. unfold chain_choice.
    destruct (Js.strict_eq (localStorage w !! "theme") "dark") eqn:Ed;
      [apply ClassListFacts.contains_add|].
    destruct (Js.strict_eq (localStorage w !! "theme") "light") eqn:El;
      [apply ClassListFacts.contains_remove|].
    destruct (matches (mediaQuery w)); [apply ClassListFacts.contains_add|].
    apply Hmarkup; [done|by apply strict_eq_false..|done].
  - rewrite (session_initTheme_body w cl Hb). cbn [fst snd]. split; [done|].
    erewrite applied_body by reflexivity. by rewrite contains_add_remove.
Qed.

(** In script.js the chain itself resolves as stated: on a page with a
    body and a control the icon drawn at page load is the sun exactly when
    the stored value is ["dark"], or nothing is stored and the system
    prefers dark, whatever classes the body had. *)
Lemma local_init_icon_resolves (w : World) (cl : ClassList.t) (btn : Button) :
  body w = Some cl →
  toggleBtn w = Some btn →
  localStorage w !! "theme" ∈ [None; Some "dark"; Some "light"] →
  icon (after LocalTheme.initTheme w) = Some sun_icon ↔
  resolves_dark (localStorage w !! "theme") (matches (mediaQuery w)).
Proof.
  intros Hb Ht Hdom. unfold after, icon.
  rewrite (local_initTheme_body w cl Hb). cbn [snd toggleBtn].
  rewrite Ht. cbn. rewrite <- (chain_choice_resolves _ _ Hdom).
  rewrite <- icon_sun_iff. split; congruence.
Qed.

(** C1.  script.js misses the statement at one input.  On a page whose
    body carries the dark class already, with nothing stored and a light
    system, the statement asks for light.  The last branch of the chain,
    commented "Default to Light", only sets the icon: it does not remove
    the class as the branch for a stored ["light"] does.  Page load leaves
    the page dark under the moon icon.  part_000 on the same page applies
    light. *)
Lemma initial_resolution_markup_dark :
  store Local markup_dark_page !! "theme" ∈ [None; Some "dark"; Some "light"] ∧
  ¬ (applied (after (initTheme Local) markup_dark_page) = Some Dark ↔
     resolves_dark (store Local markup_dark_page !! "theme")
                   (matches (mediaQuery markup_dark_page))) ∧
  outcome (initTheme Local) markup_dark_page = inl () ∧
  applied (after (initTheme Local) markup_dark_page) = Some Dark ∧
  icon (after (initTheme Local) markup_dark_page) = Some moon_icon ∧
  applied (after (initTheme Session) markup_dark_page) = Some Light.
Proof.
  split; [by left|]. split; [|by split_and!].
  intros [Hto _].
  destruct (Hto eq_refl) as [Hd|[_ Hs]]; discriminate.
Qed.

(** Where that branch is not taken on a dark body, page load applies what
    the chain resolves.  On a page with a body, with the stored value
    absent, ["dark"] or ["light"], page load completes and leaves dark
    applied exactly when the stored value is ["dark"], or nothing is stored
    and the system prefers dark; a stored value decides alone, whatever the
    system prefers.  For script.js the case "nothing stored, light system,
    body already dark" is excluded. *)
Theorem initial_resolution (i : Impl) (w : World) (cl : ClassList.t) :
  body w = Some cl →
  store i w !! "theme" ∈ [None; Some "dark"; Some "light"] →
  (i = Local → store i w !! "theme" = None → matches (mediaQuery w) = false →
   ClassList.contains "dark-theme" cl = false) →
  let w' := after (initTheme i) w in
  outcome (initTheme i) w = inl () ∧
  is_Some (applied w') ∧
  (applied w' = Some Dark ↔
   resolves_dark (store i w !! "theme") (matches (mediaQuery w))) ∧
  (∀ s, store i w !! "theme" = Some s →
        applied w' = Some (if decide (s = "dark") then Dark else Light)).
Proof.
  intros Hb Hdom Hmarkup w'.
  destruct (initTheme_applied i w cl Hb) as [Ho Ha].
  { intros Hi Hd Hl. apply (Hmarkup Hi).
    repeat (apply elem_of_cons in Hdom as [?|Hdom]); try done.
    by inversion Hdom. }
  fold w' in Ha. rewrite Ha. repeat split; [done|eauto|..].
  - intros [= Hc]. apply chain_choice_resolves; [done|].
    by destruct (chain_choice _ _).
  - intros Hr. apply chain_choice_resolves in Hr; [|done]. by rewrite Hr.
  - intros s Hs. rewrite Hs in Hdom |- *. f_equal.
    repeat (apply elem_of_cons in Hdom as [[= ->]|Hdom]); try done.
    by inversion Hdom.
Qed.

Lemma initial_resolution_witness :
  applied (after (initTheme Local)
             (set_localStorage {[ "theme" := "light" ]}
                (set_mediaQuery {| matches := true; onchange := [] |}
                   markup_dark_page)))
  = Some Light.
Proof.
  pose proof (initial_resolution Local
    (set_localStorage {[ "theme" := "light" ]}
       (set_mediaQuery {| matches := true; onchange := [] |} markup_dark_page))
    ["dark-theme"] eq_refl) as H.
  destruct H as (_ & _ & _ & Hwin).
  - right. right. left.
  - intros _ Hnone. discriminate Hnone.
  - exact (Hwin "light" eq_refl).
Defined.

(** C10.  On a page with a body that does not carry the dark class, and
    with the same value (or none) under ["theme"] in both storage areas,
    page load with script.js and page load with part_000 end the same way
    and leave the same applied theme, the same class list and the same
    icon, whatever the stored string and the system preference are. *)
Theorem implementations_agree_initially (w : World) (cl : ClassList.t) :
  body w = Some cl →
  ClassList.contains "dark-theme" cl = false →
  localStorage w !! "theme" = sessionStorage w !! "theme" →
  let wl := after (initTheme Local) w in
  let ws := after (initTheme Session) w in
  outcome (initTheme Local) w = outcome (initTheme Session) w ∧
  applied wl = applied ws ∧
  body wl = body ws ∧
  icon wl = icon ws.
Proof.
  intros Hb Hlight Hsame wl ws. subst wl ws. unfold after, outcome.
  cbn [initTheme].
  rewrite (local_initTheme_body w cl Hb), (session_initTheme_body w cl Hb).
  cbn [fst snd]. unfold applied, icon. cbn [body toggleBtn].
  rewrite Hsame. unfold chain_choice.
  destruct (Js.strict_eq (sessionStorage w !! "theme") "dark");
    [by destruct (toggleBtn w)|].
  destruct (Js.strict_eq (sessionStorage w !! "theme") "light");
    [by destruct (toggleBtn w)|].
  destruct (matches (mediaQuery w)); [by destruct (toggleBtn w)|].
  rewrite (ClassListFacts.remove_absent _ _ Hlight).
  by destruct (toggleBtn w).
Qed.

Lemma implementations_agree_initially_witness :
  applied (after (initTheme Local) blank_page)
  = applied (after (initTheme Session) blank_page).
Proof.
  pose proof (implementations_agree_initially blank_page []
                eq_refl eq_refl eq_refl) as (_ & Ha & _).
  exact Ha.
Defined.

(** * The typewriter

    [typeEffect] (script.js, lines 186-202; the same body with other
    constants at part_000, lines 147-160).  The module-level variables
    [typedIndex] and [charIndex], the text of the [#typed] element and the
    timers set with [setTimeout] make up the state.  A string is the list
    of its code units, so [length] and [substring(0, n)] are [length] and
    [take n]. *)
Module Typewriter.

Section typewriter.

Context {char : Type}.

(** The array of phrases, the delay after a finished phrase and the delay
    between two characters: 1500 and 80 in script.js, 1000 and 120 in the
    older script. *)
Variable typedStrings : list (list char).
Variables pause tick : nat.

Record Typer := {
  typedIndex : nat;
  charIndex : nat;
  typed : option (list char);   (* [textContent] of #typed; None: no element *)
  timers : list nat;            (* delays of the pending timers, oldest first *)
}.

(** One call of the function.
<<
  if (!typedElement) return;
  if (typedIndex >= typedStrings.length) typedIndex = 0;
  const currentText = typedStrings[typedIndex];
  typedElement.textContent = currentText.substring(0, charIndex++);
  if (charIndex > currentText.length) {
    charIndex = 0; typedIndex++; setTimeout(typeEffect, pause);
  } else setTimeout(typeEffect, tick);
>>
    Reading [substring] of [undefined] (an empty array) throws, after the
    index was reset. *)
Definition typeEffect (st : Typer) : (() + exn) * Typer :=
  match typed st with
  | None => (inl (), st)
  | Some _ =>
      let i := if bool_decide (length typedStrings ≤ typedIndex st)
               then 0 else typedIndex st in
      match typedStrings !! i with
      | None =>
          (inr TypeError,
           {| typedIndex := i; charIndex := charIndex st;
              typed := typed st; timers := timers st |})
      | Some currentText =>
          let shown := take (charIndex st) currentText in
          let c := S (charIndex st) in
          if bool_decide (length currentText < c) then
            (inl (),
             {| typedIndex := S i; charIndex := 0;
                typed := Some shown; timers := timers st ++ [pause] |})
          else
            (inl (),
             {| typedIndex := i; charIndex := c;
                typed := Some shown; timers := timers st ++ [tick] |})
      end
  end.

(** The oldest pending timer fires: it leaves the queue and its callback,
    [typeEffect], runs.  With no timer pending nothing happens. *)
Definition fire_timer (st : Typer) : (() + exn) * Typer :=
  match timers st with
  | [] => (inl (), st)
  | _ :: rest =>
      typeEffect {| typedIndex := typedIndex st; charIndex := charIndex st;
                    typed := typed st; timers := rest |}
  end.

(** [n] timers fire one after the other; a throw ends the chain. *)
Fixpoint ticks (n : nat) (st : Typer) : (() + exn) * Typer :=
  match n with
  | 0 => (inl (), st)
  | S n' =>
      match fire_timer st with
      | (inl _, st') => ticks n' st'
      | (inr e, st') => (inr e, st')
      end
  end.

(** The index the next call reads the array at. *)
Definition current (st : Typer) : nat :=
  if bool_decide (length typedStrings ≤ typedIndex st) then 0
  else typedIndex st.

(** The number of calls one round through all phrases takes. *)
Definition period : nat := sum_list ((λ p, S (length p)) <$> typedStrings).

(** The animation is running: the element exists and exactly one timer is
    pending. *)
Definition running (st : Typer) : Prop :=
  is_Some (typed st) ∧ ∃ d, timers st = [d].

(** The indices are in range for the phrase that is being typed. *)
Definition in_range (st : Typer) : Prop :=
  typedIndex st ≤ length typedStrings ∧
  ∀ p, typedStrings !! current st = Some p → charIndex st ≤ length p.

Lemma current_lt (st : Typer) :
  typedStrings ≠ [] → current st < length typedStrings.
Proof.
  intros Hne. unfold current. case_bool_decide; [|lia].
  destruct typedStrings; [done|]. cbn. lia.
Qed.

Lemma current_small (st : Typer) :
  typedIndex st < length typedStrings → current st = typedIndex st.
Proof. intros Hlt. unfold current. case_bool_decide; [lia|done]. Qed.

(** One call in the middle of a phrase: the first [c] characters are
    shown, the position advances, the short delay is set. *)
Lemma typeEffect_char (st : Typer) (p : list char) :
  is_Some (typed st) →
  typedStrings !! current st = Some p →
  charIndex st < length p →
  typeEffect st =
  (inl (),
   {| typedIndex := current st; charIndex := S (charIndex st);
      typed := Some (take (charIndex st) p);
      timers := timers st ++ [tick] |}).
Proof.
  intros [t Ht] Hp Hc. unfold typeEffect. rewrite Ht.
  fold (current st). rewrite Hp. cbn zeta.
  rewrite bool_decide_eq_false_2 by lia. done.
Qed.

(** One call at the end of a phrase: the whole phrase is shown, the next
    phrase is selected, the long delay is set. *)
Lemma typeEffect_end (st : Typer) (p : list char) :
  is_Some (typed st) →
  typedStrings !! current st = Some p →
  length p ≤ charIndex st →
  typeEffect st =
  (inl (),
   {| typedIndex := S (current st); charIndex := 0;
      typed := Some p; timers := timers st ++ [pause] |}).
Proof.
  intros [t Ht] Hp Hc. unfold typeEffect. rewrite Ht.
  fold (current st). rewrite Hp. cbn zeta.
  rewrite bool_decide_eq_true_2 by lia. by rewrite take_ge.
Qed.

Lemma ticks_add (n m : nat) (st : Typer) :
  ticks (n + m) st =
  match ticks n st with
  | (inl _, st') => ticks m st'
  | (inr e, st') => (inr e, st')
  end.
Proof.
  revert st. induction n as [|n IH]; intros st; [done|]. cbn [Nat.add ticks].
  destruct (fire_timer st) as [[u|e] st']; [apply IH|done].
Qed.

(** What a call does depends on the state only through the phrase index it
    will read, the character position and the timer queue. *)
Lemma fire_timer_ext (a b : Typer) :
  typedStrings ≠ [] →
  is_Some (typed a) → is_Some (typed b) →
  current a = current b → charIndex a = charIndex b →
  length (timers a) = 1 → length (timers b) = 1 →
  fire_timer a = fire_timer b.
Proof.
  intros Hne [ta Ha] [tb Hb] Hcur Hc Hla Hlb. unfold fire_timer.
  destruct (timers a) as [|da [|]]; try done.
  destruct (timers b) as [|db [|]]; try done.
  unfold typeEffect. cbn [typed typedIndex charIndex timers].
  rewrite Ha, Hb. fold (current a) (current b). rewrite Hcur, Hc.
  destruct (typedStrings !! current b) as [p|] eqn:Hp; [done|].
  pose proof (current_lt b Hne) as Hlt.
  apply lookup_ge_None in Hp. lia.
Qed.

(** Typing inside a phrase: [S k] timers after position [c], the first
    [c + k] characters are shown. *)
Lemma ticks_chars (i : nat) (p : list char) (k c : nat) ty d :
  typedStrings !! i = Some p →
  c + S k ≤ length p →
  ticks (S k) {| typedIndex := i; charIndex := c;
                 typed := Some ty; timers := [d] |} =
  (inl (),
   {| typedIndex := i; charIndex := c + S k;
      typed := Some (take (c + k) p); timers := [tick] |}).
Proof.
  intros Hp. revert c ty d. induction k as [|k IH]; intros c ty d Hle.
  - cbn [ticks fire_timer timers typedIndex charIndex typed].
    assert (i < length typedStrings) as Hi by (by eapply lookup_lt_Some).
    rewrite (typeEffect_char _ p); cbn [typed timers charIndex]; eauto;
      rewrite ?current_small by done; cbn [typedIndex]; [|done|lia].
    by rewrite Nat.add_0_r, Nat.add_1_r.
  - change (ticks (S (S k)) ?st) with
      (match fire_timer st with
       | (inl _, st') => ticks (S k) st'
       | (inr e, st') => (inr e, st')
       end).
    cbn [fire_timer timers typedIndex charIndex typed].
    assert (i < length typedStrings) as Hi by (by eapply lookup_lt_Some).
    rewrite (typeEffect_char _ p); cbn [typed timers charIndex]; eauto;
      rewrite ?current_small by done; cbn [typedIndex app]; [|done|lia].
    rewrite IH by lia. by replace (S c + S k) with (c + S (S k)) by lia;
      replace (S c + k) with (c + S k) by lia.
Qed.

(** A whole phrase: from its start, one timer per character and one more
    show it completely, select the next phrase and set the long delay. *)
Lemma ticks_phrase (i : nat) (p : list char) ty d :
  typedStrings !! i = Some p →
  ticks (S (length p)) {| typedIndex := i; charIndex := 0;
                          typed := Some ty; timers := [d] |} =
  (inl (),
   {| typedIndex := S i; charIndex := 0;
      typed := Some p; timers := [pause] |}).
Proof.
  intros Hp.
  assert (i < length typedStrings) as Hi by (by eapply lookup_lt_Some).
  assert (∀ c ty' d',
    c = length p →
    ticks 1 {| typedIndex := i; charIndex := c;
               typed := Some ty'; timers := [d'] |} =
    (inl (), {| typedIndex := S i; charIndex := 0;
                typed := Some p; timers := [pause] |})) as Hend.
  { intros c ty' d' ->.
    cbn [ticks fire_timer timers typedIndex charIndex typed].
    rewrite (typeEffect_end _ p); cbn [typed timers charIndex]; eauto;
      rewrite ?current_small by done; cbn [typedIndex]; done. }
  destruct (length p) as [|n] eqn:Hlen; [by apply Hend|].
  replace (S (S n)) with (S n + 1) by lia. rewrite ticks_add.
  rewrite (ticks_chars i p n 0) by (done || lia).
  apply Hend. lia.
Qed.

(** From the start of phrase [i] to the end of the last phrase. *)
Lemma ticks_round_from (suffix : list (list char)) :
  ∀ i ty d,
    drop i typedStrings = suffix →
    suffix ≠ [] →
    ∃ q, last typedStrings = Some q ∧
      ticks (sum_list ((λ p, S (length p)) <$> suffix))
            {| typedIndex := i; charIndex := 0;
               typed := Some ty; timers := [d] |} =
      (inl (),
       {| typedIndex := length typedStrings; charIndex := 0;
          typed := Some q; timers := [pause] |}).
Proof.
  induction suffix as [|p rest IH]; intros i ty d Hdrop Hne; [done|].
  assert (typedStrings !! i = Some p) as Hp.
  { rewrite <- (Nat.add_0_r i), <- lookup_drop, Hdrop. done. }
  assert (drop (S i) typedStrings = rest) as Hrest.
  { rewrite (drop_S _ _ _ Hp) in Hdrop. by injection Hdrop. }
  cbn [fmap list_fmap sum_list sum_list_with].
  change (S (length p) + ?n) with (S (length p) + n).
  rewrite ticks_add, (ticks_phrase i p) by done.
  destruct rest as [|p' rest'].
  - exists p. cbn [fmap list_fmap sum_list sum_list_with ticks].
    assert (length typedStrings = S i) as Hlen.
    { pose proof (lookup_lt_Some _ _ _ Hp).
      apply (f_equal length) in Hrest. rewrite length_drop in Hrest.
      cbn in Hrest. lia. }
    split; [|by rewrite Hlen].
    rewrite last_lookup, Hlen. done.
  - apply (IH (S i) p pause); done.
Qed.

(** ** Properties of the typewriter *)

(** X1.  Whatever the values of the two counters, a call on a page with
    the element and a non-empty array completes, shows a prefix of one of
    the phrases, sets exactly one more timer with one of the two delays,
    and leaves the counters in range. *)
Theorem typeEffect_shows_prefix (st : Typer) :
  is_Some (typed st) →
  typedStrings ≠ [] →
  let st' := (typeEffect st).2 in
  (typeEffect st).1 = inl () ∧
  (∃ p t, p ∈ typedStrings ∧ typed st' = Some t ∧ t `prefix_of` p) ∧
  (∃ d, timers st' = timers st ++ [d] ∧ (d = tick ∨ d = pause)) ∧
  in_range st'.
Proof.
  intros Ht Hne st'. subst st'.
  pose proof (current_lt st Hne) as Hlt.
  destruct (lookup_lt_is_Some_2 _ _ Hlt) as [p Hp].
  assert (p ∈ typedStrings) as Hin by (by eapply list_elem_of_lookup_2).
  destruct (decide (charIndex st < length p)) as [Hc|Hc].
  - rewrite (typeEffect_char st p Ht Hp Hc). cbn [fst snd].
    split_and!; [done| | |].
    + exists p, (take (charIndex st) p). split_and!; [done..|].
      apply prefix_take.
    + eauto.
    + split; [cbn; lia|].
      intros q. rewrite current_small by done. cbn [typedIndex charIndex].
      rewrite Hp. intros [= <-]. lia.
  - rewrite (typeEffect_end st p Ht Hp) by lia. cbn [fst snd].
    split_and!; [done| | |].
    + by exists p, p.
    + eauto.
    + split; [cbn; lia|]. intros q _. cbn. lia.
Qed.

(** X2.  Once started, the animation neither stops nor doubles: with a
    non-empty array, from a state with the element and one pending timer,
    any number of timers fire without a throw and leave the element and
    exactly one pending timer. *)
Theorem typewriter_keeps_running (n : nat) (st : Typer) :
  typedStrings ≠ [] →
  running st →
  (ticks n st).1 = inl () ∧ running (ticks n st).2.
Proof.
  intros Hne. revert st. induction n as [|n IH]; intros st Hrun; [done|].
  cbn [ticks]. destruct Hrun as [Ht [d Hd]].
  unfold fire_timer. rewrite Hd.
  set (st0 := {| typedIndex := typedIndex st; charIndex := charIndex st;
                 typed := typed st; timers := [] |}).
  pose proof (current_lt st0 Hne) as Hlt.
  destruct (lookup_lt_is_Some_2 _ _ Hlt) as [p Hp].
  destruct (decide (charIndex st0 < length p)) as [Hc|Hc].
  - rewrite (typeEffect_char st0 p Ht Hp Hc). apply IH.
    split; cbn; eauto.
  - rewrite (typeEffect_end st0 p Ht Hp) by lia. apply IH.
    split; cbn; eauto.
Qed.

(** X3.  Typing one phrase.  From the start of phrase [i], with the
    animation running, the timer that fires as number [k + 1] shows the
    first [k] characters and sets the short delay, for every [k] below the
    length; the one after shows the whole phrase, moves on to the next
    phrase and sets the long delay. *)
Theorem typewriter_types_phrase (i : nat) (p : list char) (st : Typer) :
  typedStrings !! i = Some p →
  typedIndex st = i →
  charIndex st = 0 →
  running st →
  (∀ k, k < length p →
        ticks (S k) st =
        (inl (), {| typedIndex := i; charIndex := S k;
                    typed := Some (take k p); timers := [tick] |})) ∧
  ticks (S (length p)) st =
  (inl (), {| typedIndex := S i; charIndex := 0;
              typed := Some p; timers := [pause] |}).
Proof.
  intros Hp Hi Hc [[ty Hty] [d Hd]].
  destruct st as [i0 c0 ty0 tm0].
  cbn [typedIndex charIndex typed timers] in *. subst i0 c0 ty0 tm0. split.
  - intros k Hk. by rewrite (ticks_chars i p k 0) by (done || lia).
  - by apply ticks_phrase.
Qed.

(** X4.  The animation is periodic.  From a phrase boundary at the start
    of the array (counter 0, or past the end as the last phrase leaves
    it), [period] timers later the page is in the state it will be in
    again and again: firing [period] more timers changes nothing, for any
    positive number of timers fired first. *)
Theorem typewriter_is_periodic (n : nat) (st : Typer) :
  typedStrings ≠ [] →
  running st →
  charIndex st = 0 →
  typedIndex st = 0 ∨ length typedStrings ≤ typedIndex st →
  ticks (period + S n) st = ticks (S n) st.
Proof.
  intros Hne [[ty Hty] [d Hd]] Hc Hi.
  set (st0 := {| typedIndex := 0; charIndex := 0;
                 typed := Some ty; timers := [d] |}).
  assert (current st = 0) as Hcur.
  { unfold current. case_bool_decide; [done|]. by destruct Hi; [|lia]. }
  assert (∀ m, ticks (S m) st = ticks (S m) st0) as Hsame.
  { intros m. cbn [ticks].
    rewrite (fire_timer_ext st st0); try done; rewrite ?Hty, ?Hd; eauto.
    rewrite Hcur. unfold current. cbn. case_bool_decide; done. }
  destruct (ticks_round_from typedStrings 0 ty d) as (q & _ & Hround);
    [apply drop_0|done|]. fold period in Hround. fold st0 in Hround.
  assert (0 < period) as Hpos.
  { unfold period. destruct typedStrings; [done|]. cbn. lia. }
  assert (ticks period st = ticks period st0) as Hper.
  { destruct period as [|m]; [lia|]. apply Hsame. }
  rewrite ticks_add, Hper, Hround, Hsame. cbn [ticks].
  rewrite (fire_timer_ext _ st0); try done; eauto.
  unfold current. cbn [typedIndex]. rewrite bool_decide_eq_true_2 by done.
  unfold current. cbn. case_bool_decide; done.
Qed.

(** X5.  The long delay marks a finished phrase.  With the counters in
    range and the two delays different, the timer a call sets carries the
    long delay exactly when the call has shown the whole phrase. *)
Theorem typewriter_pause_iff_complete (st : Typer) (p : list char) :
  is_Some (typed st) →
  typedStrings !! current st = Some p →
  charIndex st ≤ length p →
  pause ≠ tick →
  let st' := (typeEffect st).2 in
  last (timers st') = Some pause ↔ typed st' = Some p.
Proof.
  intros Ht Hp Hc Hneq st'. subst st'.
  destruct (decide (charIndex st < length p)) as [Hlt|Hge].
  - rewrite (typeEffect_char st p Ht Hp Hlt). cbn [snd timers typed].
    rewrite last_snoc. split; [by intros [= ?]|].
    intros [= Heq]. apply (f_equal length) in Heq.
    rewrite length_take in Heq. lia.
  - rewrite (typeEffect_end st p Ht Hp) by lia. cbn [snd timers typed].
    by rewrite last_snoc.
Qed.

(** X6.  Without the [#typed] element nothing is typed and nothing is
    scheduled: timers that fire only leave the queue, the counters and the
    absent element stay as they are. *)
Theorem typewriter_without_element (n : nat) (st : Typer) :
  typed st = None →
  typeEffect st = (inl (), st) ∧
  (ticks n st).1 = inl () ∧
  typed (ticks n st).2 = None ∧
  typedIndex (ticks n st).2 = typedIndex st ∧
  charIndex (ticks n st).2 = charIndex st ∧
  timers (ticks n st).2 = drop n (timers st).
Proof.
  intros Hnone. split; [unfold typeEffect; by rewrite Hnone|].
  revert st Hnone. induction n as [|n IH]; intros st Hnone.
  - by rewrite drop_0.
  - cbn [ticks]. unfold fire_timer.
    destruct (timers st) as [|d rest] eqn:Htm.
    + destruct (IH st Hnone) as (? & ? & ? & ? & Hd).
      repeat split; try done. rewrite Hd, Htm. by rewrite !drop_nil.
    + unfold typeEffect. cbn [typed]. rewrite Hnone.
      destruct (IH {| typedIndex := typedIndex st; charIndex := charIndex st;
                      typed := None; timers := rest |} eq_refl)
        as (? & ? & ? & ? & Hd).
      repeat split; try done.
Qed.

(** With an empty array the first call throws before it sets a timer. *)
Lemma typeEffect_empty_array (st : Typer) :
  typedStrings = [] →
  is_Some (typed st) →
  (typeEffect st).1 = inr TypeError ∧
  timers (typeEffect st).2 = timers st.
Proof.
  intros Hnil [t Ht]. unfold typeEffect. rewrite Ht, Hnil. cbn.
  by rewrite bool_decide_eq_true_2 by lia.
Qed.

End typewriter.

(** ** The constants of script.js *)

(** Lines 37-41. *)
Definition typedStrings : list (list ascii) :=
  String.list_ascii_of_string <$>
    ["Front-End Developer"; "Problem Solver"; "Web Enthusiast"].

(** Lines 44-45 and a page with an empty [#typed] element. *)
Definition fresh : @Typer ascii :=
  {| typedIndex := 0; charIndex := 0; typed := Some []; timers := [] |}.

(** [DOMContentLoaded] calls the function once (line 52). *)
Definition loaded : @Typer ascii := (typeEffect typedStrings 1500 80 fresh).2.

(** The first phrase has just been completed. *)
Definition first_done : @Typer ascii :=
  {| typedIndex := 1; charIndex := 0;
     typed := Some (String.list_ascii_of_string "Front-End Developer");
     timers := [1500] |}.

(** The last phrase has just been completed. *)
Definition round_done : @Typer ascii :=
  {| typedIndex := 3; charIndex := 0;
     typed := Some (String.list_ascii_of_string "Web Enthusiast");
     timers := [1500] |}.

Example first_done_reached :
  ticks typedStrings 1500 80 19 loaded = (inl (), first_done).
Proof. reflexivity. Qed.

Example round_done_reached :
  ticks typedStrings 1500 80 49 loaded = (inl (), round_done) ∧
  period typedStrings = 50.
Proof. split; reflexivity. Qed.

Lemma typeEffect_shows_prefix_witness :
  (typeEffect typedStrings 1500 80 fresh).1 = inl ().
Proof.
  exact (proj1 (typeEffect_shows_prefix typedStrings 1500 80 fresh
                  (ex_intro _ [] eq_refl) ltac:(discriminate))).
Defined.

Lemma typewriter_keeps_running_witness :
  (ticks typedStrings 1500 80 100 loaded).1 = inl ().
Proof.
  exact (proj1 (typewriter_keeps_running typedStrings 1500 80 100 loaded
                  ltac:(discriminate)
                  (conj (ex_intro _ [] eq_refl) (ex_intro _ 80 eq_refl)))).
Defined.

Lemma typewriter_types_phrase_witness :
  ticks typedStrings 1500 80 15 first_done =
  (inl (),
   {| typedIndex := 2; charIndex := 0;
      typed := Some (String.list_ascii_of_string "Problem Solver");
      timers := [1500] |}).
Proof.
  exact (proj2 (typewriter_types_phrase typedStrings 1500 80 1
                  (String.list_ascii_of_string "Problem Solver") first_done
                  eq_refl eq_refl eq_refl
                  (conj (ex_intro _ _ eq_refl) (ex_intro _ 1500 eq_refl)))).
Defined.

Lemma typewriter_is_periodic_witness :
  ticks typedStrings 1500 80 (period typedStrings + 1) round_done =
  ticks typedStrings 1500 80 1 round_done.
Proof.
  exact (typewriter_is_periodic typedStrings 1500 80 0 round_done
           ltac:(discriminate)
           (conj (ex_intro _ _ eq_refl) (ex_intro _ 1500 eq_refl))
           eq_refl (or_intror (le_n 3))).
Defined.

Lemma typewriter_pause_iff_complete_witness :
  last (timers (typeEffect typedStrings 1500 80 loaded).2) = Some 1500 ↔
  typed (typeEffect typedStrings 1500 80 loaded).2 =
    Some (String.list_ascii_of_string "Front-End Developer").
Proof.
  apply (typewriter_pause_iff_complete typedStrings 1500 80 loaded
           (String.list_ascii_of_string "Front-End Developer")).
  - by eexists.
  - reflexivity.
  - vm_compute. lia.
  - discriminate.
Defined.

Lemma typewriter_without_element_witness :
  timers (ticks typedStrings 1500 80 1
            {| typedIndex := 0; charIndex := 0; typed := None;
               timers := [80] |}).2 = [].
Proof.
  exact (proj2 (proj2 (proj2 (proj2 (proj2
    (typewriter_without_element typedStrings 1500 80 1
       {| typedIndex := 0; charIndex := 0; typed := None; timers := [80] |}
       eq_refl)))))).
Defined.

End Typewriter.


(** * The project filter

    [initPortfolio] (script.js, lines 206-233).  The page part it works on:
    the [.filter-btn] buttons, the [.project-card] cards and the
    [#noProjects] message, together with the timers that fade cards in. *)
Module Portfolio.

Record FilterBtn := {
  fb_classList : list string;
  fb_filter : option string;   (* [getAttribute('data-filter')], None: null *)
  fb_onclick : list nat;       (* listeners, each named by the button it closes over *)
}.

Record Card := {
  category : option string;    (* [getAttribute('data-category')] *)
  display : string;            (* [style.display] *)
  opacity : string;            (* [style.opacity] *)
}.

Record Gallery := {
  btns : list FilterBtn;
  cards : list Card;
  msg : option string;         (* [style.display] of #noProjects, None: no element *)
  fades : list nat;            (* cards with a pending 50 ms timer, oldest first *)
}.

(** [filter === 'all' || card.getAttribute('data-category') === filter];
    both sides of the second test can be [null]. *)
Definition shows (flt cat : option string) : bool :=
  Js.strict_eq flt "all" || bool_decide (cat = flt).

(** The body of [cards.forEach], card by card from index [j] on, with the
    running [count] and the timers set so far. *)
Fixpoint each_card (flt : option string) (j : nat) (cs : list Card)
    (count : nat) (tm : list nat) : list Card * nat * list nat :=
  match cs with
  | [] => ([], count, tm)
  | c :: cs' =>
      if shows flt (category c) then
        let '(r, n, t) := each_card flt (S j) cs' (S count) (tm ++ [j]) in
        ({| category := category c; display := "flex"; opacity := "0" |} :: r,
         n, t)
      else
        let '(r, n, t) := each_card flt (S j) cs' count tm in
        ({| category := category c; display := "none";
            opacity := opacity c |} :: r,
         n, t)
  end.

(** [b.classList.remove('active')] and [btn.classList.add('active')]. *)
Definition deactivate (b : FilterBtn) : FilterBtn :=
  {| fb_classList := ClassList.remove "active" (fb_classList b);
     fb_filter := fb_filter b; fb_onclick := fb_onclick b |}.

Definition activate (b : FilterBtn) : FilterBtn :=
  {| fb_classList := ClassList.add "active" (fb_classList b);
     fb_filter := fb_filter b; fb_onclick := fb_onclick b |}.

(** Lines 213-231: the listener of the button at index [k] of the node
    list.  Listeners exist only for buttons of the list. *)
Definition onFilterClick (k : nat) (g : Gallery) : Gallery :=
  match btns g !! k with
  | None => g
  | Some btn =>
      let btns' := alter activate k (deactivate <$> btns g) in
      let flt := fb_filter btn in
      let '(cards', count, tm) := each_card flt 0 (cards g) 0 (fades g) in
      {| btns := btns'; cards := cards';
         msg := (λ _, if bool_decide (count = 0) then "block" else "none")
                  <$> msg g;
         fades := tm |}
  end.

(** Lines 206-212: no buttons, no listeners; else one listener per
    button. *)
Definition initPortfolio (g : Gallery) : Gallery :=
  if bool_decide (length (btns g) = 0) then g
  else
    {| btns := imap (λ k b, {| fb_classList := fb_classList b;
                               fb_filter := fb_filter b;
                               fb_onclick := fb_onclick b ++ [k] |}) (btns g);
       cards := cards g; msg := msg g; fades := fades g |}.

(** A click on button [k] runs its listeners in order. *)
Definition click (k : nat) (g : Gallery) : Gallery :=
  match btns g !! k with
  | None => g
  | Some b => foldl (λ g' h, onFilterClick h g') g (fb_onclick b)
  end.

(** [card.style.opacity = '1'], the body of the timer. *)
Definition fade_in (c : Card) : Card :=
  {| category := category c; display := display c; opacity := "1" |}.

(** Every pending fade timer fires. *)
Definition fire_fades (g : Gallery) : Gallery :=
  {| btns := btns g;
     cards := foldl (λ cs j, alter fade_in j cs) (cards g) (fades g);
     msg := msg g; fades := [] |}.

(** What the loop does to one card. *)
Definition paint (flt : option string) (c : Card) : Card :=
  if shows flt (category c)
  then {| category := category c; display := "flex"; opacity := "0" |}
  else {| category := category c; display := "none"; opacity := opacity c |}.

(** The indices, from [j] on, of the cards the filter shows. *)
Fixpoint shown_from (flt : option string) (j : nat) (cs : list Card) : list nat :=
  match cs with
  | [] => []
  | c :: cs' =>
      if shows flt (category c) then j :: shown_from flt (S j) cs'
      else shown_from flt (S j) cs'
  end.

Lemma each_card_spec (flt : option string) (cs : list Card) :
  ∀ j count tm,
    each_card flt j cs count tm =
    (paint flt <$> cs,
     count + length (shown_from flt j cs),
     tm ++ shown_from flt j cs).
Proof.
  induction cs as [|c cs IH]; intros j count tm; cbn [each_card shown_from].
  - by rewrite Nat.add_0_r, app_nil_r.
  - cbn [fmap list_fmap]. unfold paint at 1.
    destruct (shows flt (category c)).
    + rewrite IH. cbn [length]. rewrite <- app_assoc. cbn [app].
      do 2 f_equal. lia.
    + by rewrite IH.
Qed.

Lemma elem_of_shown_from (flt : option string) (cs : list Card) :
  ∀ j i,
    i ∈ shown_from flt j cs ↔
    ∃ c, j ≤ i ∧ cs !! (i - j) = Some c ∧ shows flt (category c) = true.
Proof.
  induction cs as [|c cs IH]; intros j i; cbn [shown_from].
  - split; [by intros ?%elem_of_nil|]. by intros (? & _ & ? & _).
  - destruct (shows flt (category c)) eqn:Hs.
    + rewrite elem_of_cons, IH. split.
      * intros [->|(c' & Hle & Hc & Hs')].
        -- exists c. rewrite Nat.sub_diag. eauto.
        -- exists c'. split_and!; [lia| |done].
           replace (i - j) with (S (i - S j)) by lia. done.
      * intros (c' & Hle & Hc & Hs').
        destruct (decide (i = j)) as [->|Hne]; [by left|right].
        exists c'. split_and!; [lia| |done].
        replace (i - j) with (S (i - S j)) in Hc by lia. done.
    + rewrite IH. split.
      * intros (c' & Hle & Hc & Hs'). exists c'. split_and!; [lia| |done].
        replace (i - j) with (S (i - S j)) by lia. done.
      * intros (c' & Hle & Hc & Hs').
        destruct (decide (i = j)) as [->|Hne].
        { rewrite Nat.sub_diag in Hc. cbn in Hc. congruence. }
        exists c'. split_and!; [lia| |done].
        replace (i - j) with (S (i - S j)) in Hc by lia. done.
Qed.

(** The listener, spelled out: buttons repainted, cards painted with the
    button's filter, the message set from the number of cards shown, one
    fade timer more for each card shown. *)
Lemma onFilterClick_spec (k : nat) (g : Gallery) (btn : FilterBtn) :
  btns g !! k = Some btn →
  onFilterClick k g =
  {| btns := alter activate k (deactivate <$> btns g);
     cards := paint (fb_filter btn) <$> cards g;
     msg := (λ _, if bool_decide
                       (length (shown_from (fb_filter btn) 0 (cards g)) = 0)
                  then "block" else "none") <$> msg g;
     fades := fades g ++ shown_from (fb_filter btn) 0 (cards g) |}.
Proof.
  intros Hk. unfold onFilterClick. rewrite Hk. cbn zeta.
  by rewrite each_card_spec.
Qed.

Lemma display_paint (flt : option string) (c : Card) :
  (display (paint flt c) = "flex" ↔ shows flt (category c) = true) ∧
  (display (paint flt c) = "none" ↔ shows flt (category c) = false) ∧
  category (paint flt c) = category c.
Proof. unfold paint. by destruct (shows flt (category c)). Qed.

Lemma paint_paint (flt : option string) (c : Card) :
  paint flt (paint flt c) = paint flt c.
Proof.
  unfold paint at 1. destruct (display_paint flt c) as (_ & _ & ->).
  unfold paint. by destruct (shows flt (category c)).
Qed.

Lemma shown_from_paint (flt flt' : option string) (cs : list Card) (j : nat) :
  shown_from flt j (paint flt' <$> cs) = shown_from flt j cs.
Proof.
  revert j. induction cs as [|c cs IH]; intros j; [done|].
  cbn [fmap list_fmap shown_from].
  destruct (display_paint flt' c) as (_ & _ & ->).
  destruct (shows flt (category c)); by rewrite <- IH.
Qed.

Lemma shown_from_nil (flt : option string) (cs : list Card) (j : nat) :
  shown_from flt j cs = [] ↔
  ∀ c, c ∈ cs → shows flt (category c) = false.
Proof.
  revert j. induction cs as [|c cs IH]; intros j; cbn [shown_from].
  - split; [|done]. by intros _ c ?%elem_of_nil.
  - destruct (shows flt (category c)) eqn:Hs.
    + split; [done|]. intros Hall.
      specialize (Hall c (list_elem_of_here _ _)). congruence.
    + rewrite IH. split.
      * intros Hall c' [->|?]%elem_of_cons; auto.
      * intros Hall c' Hin. apply Hall. by right.
Qed.

(** X7.  A click on a filter button shows the matching cards and hides
    the others: each card keeps its category and gets [display] ["flex"]
    exactly when the button's filter is ["all"] or equals the card's
    category (two missing attributes count as equal), and ["none"]
    otherwise.  No card is added or lost. *)
Theorem filter_shows_matching (k : nat) (g : Gallery) (btn : FilterBtn) :
  btns g !! k = Some btn →
  let g' := onFilterClick k g in
  length (cards g') = length (cards g) ∧
  ∀ j c, cards g !! j = Some c →
    ∃ c', cards g' !! j = Some c' ∧
      category c' = category c ∧
      (display c' = "flex" ↔
       fb_filter btn = Some "all" ∨ category c = fb_filter btn) ∧
      (display c' = "none" ↔
       fb_filter btn ≠ Some "all" ∧ category c ≠ fb_filter btn).
Proof.
  intros Hk g'. subst g'. rewrite (onFilterClick_spec k g btn Hk).
  cbn [cards]. split; [by rewrite length_fmap|].
  intros j c Hc. exists (paint (fb_filter btn) c).
  rewrite list_lookup_fmap, Hc. split; [done|].
  destruct (display_paint (fb_filter btn) c) as (Hf & Hn & Hcat).
  split; [done|]. rewrite Hf, Hn. unfold shows.
  rewrite orb_true_iff, orb_false_iff, strict_eq_true, strict_eq_false,
    bool_decide_eq_true, bool_decide_eq_false. done.
Qed.

(** X8.  The empty-state message follows the cards: on a page with the
    [#noProjects] element, after a click on a filter button the message is
    displayed (["block"]) exactly when no card is displayed, and hidden
    (["none"]) exactly when some card is. *)
Theorem message_iff_nothing_visible
    (k : nat) (g : Gallery) (btn : FilterBtn) (m : string) :
  btns g !! k = Some btn →
  msg g = Some m →
  let g' := onFilterClick k g in
  (msg g' = Some "block" ↔ ∀ c, c ∈ cards g' → display c ≠ "flex") ∧
  (msg g' = Some "none" ↔ ∃ c, c ∈ cards g' ∧ display c = "flex").
Proof.
  intros Hk Hm g'. subst g'. rewrite (onFilterClick_spec k g btn Hk).
  cbn [cards msg]. rewrite Hm. cbn [fmap option_fmap option_map].
  set (flt := fb_filter btn).
  assert (shown_from flt 0 (cards g) = [] ↔
          ∀ c, c ∈ paint flt <$> cards g → display c ≠ "flex") as Hnone.
  { rewrite shown_from_nil. split.
    - intros Hall c (c0 & -> & Hin)%list_elem_of_fmap.
      destruct (display_paint flt c0) as (Hf & _). rewrite Hf, (Hall c0 Hin).
      done.
    - intros Hall c Hin. destruct (display_paint flt c) as (Hf & _).
      apply not_true_is_false. rewrite <- Hf.
      apply Hall, list_elem_of_fmap_2, Hin. }
  case_bool_decide as Hlen.
  - apply length_zero_iff_nil in Hlen. split; [by rewrite <- Hnone|].
    split; [done|]. intros (c & Hin & Hd). exfalso.
    by apply (proj1 Hnone Hlen c Hin).
  - assert (shown_from flt 0 (cards g) ≠ []) as Hne.
    { intros Heq. by rewrite Heq in Hlen. }
    split.
    + split; [done|]. by intros ?%Hnone.
    + split; [|done]. intros _.
      destruct (shown_from flt 0 (cards g)) as [|i rest] eqn:Hs; [done|].
      assert (i ∈ shown_from flt 0 (cards g)) as Hi by (rewrite Hs; by left).
      apply elem_of_shown_from in Hi as (c & _ & Hc & Hshow).
      exists (paint flt c). split.
      * apply list_elem_of_fmap_2. by eapply list_elem_of_lookup_2.
      * by apply display_paint.
Qed.

(** X9.  After a click on a filter button exactly that button is marked
    active, whatever was marked before; filters and listeners of all
    buttons stay as they were. *)
Theorem exactly_one_active (k : nat) (g : Gallery) (btn : FilterBtn) :
  btns g !! k = Some btn →
  let g' := onFilterClick k g in
  length (btns g') = length (btns g) ∧
  ∀ j b, btns g !! j = Some b →
    ∃ b', btns g' !! j = Some b' ∧
      (ClassList.contains "active" (fb_classList b') = true ↔ j = k) ∧
      fb_filter b' = fb_filter b ∧ fb_onclick b' = fb_onclick b.
Proof.
  intros Hk g'. subst g'. rewrite (onFilterClick_spec k g btn Hk).
  cbn [btns]. split; [by rewrite length_alter, length_fmap|].
  intros j b Hb. destruct (decide (k = j)) as [->|Hne].
  - exists (activate (deactivate b)).
    rewrite list_lookup_alter_eq, list_lookup_fmap, Hb. split; [done|].
    cbn. by rewrite ClassListFacts.contains_add.
  - exists (deactivate b).
    rewrite list_lookup_alter_ne, list_lookup_fmap, Hb by done.
    split; [done|]. cbn. rewrite ClassListFacts.contains_remove.
    split_and!; [|done..]. split; [done|congruence].
Qed.

Lemma fade_in_fade_in (c : Card) : fade_in (fade_in c) = fade_in c.
Proof. done. Qed.

(** The cards after the timers named in [idxs] fired. *)
Lemma lookup_fold_fade (idxs : list nat) :
  ∀ (cs : list Card) (j : nat),
    foldl (λ cs j, alter fade_in j cs) cs idxs !! j =
    if bool_decide (j ∈ idxs) then fade_in <$> cs !! j else cs !! j.
Proof.
  induction idxs as [|i idxs IH]; intros cs j; [done|].
  cbn [foldl]. rewrite IH.
  destruct (decide (i = j)) as [->|Hne].
  - rewrite list_lookup_alter_eq.
    rewrite (bool_decide_eq_true_2 (j ∈ j :: idxs)) by (by left).
    case_bool_decide; [|done].
    destruct (cs !! j); [|done]. cbn. by rewrite fade_in_fade_in.
  - rewrite list_lookup_alter_ne by done.
    assert (j ∈ i :: idxs ↔ j ∈ idxs) as Hiff.
    { rewrite elem_of_cons. split; [intros [?|?]; [congruence|done]|auto]. }
    by rewrite (bool_decide_ext _ _ Hiff).
Qed.

Lemma length_fold_fade (idxs : list nat) (cs : list Card) :
  length (foldl (λ cs j, alter fade_in j cs) cs idxs) = length cs.
Proof.
  revert cs. induction idxs as [|i idxs IH]; intros cs; [done|].
  cbn [foldl]. by rewrite IH, length_alter.
Qed.

(** X10.  Fading in.  The click leaves a fade timer pending for every
    card it shows: once the pending timers have fired, every displayed
    card has opacity ["1"], and display and category of all cards are as
    the click left them. *)
Theorem shown_cards_fade_in (k : nat) (g : Gallery) (btn : FilterBtn) :
  btns g !! k = Some btn →
  let g1 := onFilterClick k g in
  let g2 := fire_fades g1 in
  fades g2 = [] ∧
  length (cards g2) = length (cards g1) ∧
  ∀ j c, cards g2 !! j = Some c →
    (display c = "flex" → opacity c = "1") ∧
    ∃ c1, cards g1 !! j = Some c1 ∧
      display c = display c1 ∧ category c = category c1.
Proof.
  intros Hk g1 g2. subst g1 g2. rewrite (onFilterClick_spec k g btn Hk).
  unfold fire_fades. cbn [cards fades btns msg]. split; [done|].
  set (flt := fb_filter btn). set (cs1 := paint flt <$> cards g).
  set (idxs := fades g ++ shown_from flt 0 (cards g)).
  assert (∀ j, foldl (λ cs j, alter fade_in j cs) cs1 idxs !! j =
               if bool_decide (j ∈ idxs) then fade_in <$> cs1 !! j
               else cs1 !! j) as Hlook by (intros; apply lookup_fold_fade).
  split; [apply length_fold_fade|].
  - intros j c. rewrite Hlook. case_bool_decide as Hin.
    + destruct (cs1 !! j) as [c1|] eqn:Hc1; [|done]. intros [= <-].
      split; [done|]. by exists c1.
    + intros Hc. split; [|by exists c].
      intros Hflex. exfalso. apply Hin. subst idxs cs1.
      apply elem_of_app. right.
      rewrite list_lookup_fmap in Hc.
      destruct (cards g !! j) as [c0|] eqn:Hc0; [|done].
      cbn in Hc. injection Hc as <-.
      apply elem_of_shown_from. exists c0. rewrite Nat.sub_0_r.
      split_and!; [lia|done|]. by apply display_paint.
Qed.

Lemma deactivate_deactivate (b : FilterBtn) :
  deactivate (deactivate b) = deactivate b.
Proof.
  unfold deactivate. cbn. by rewrite ClassListFacts.remove_remove.
Qed.

Lemma activate_deactivate_twice (b : FilterBtn) :
  activate (deactivate (activate (deactivate b))) = activate (deactivate b).
Proof.
  unfold activate, deactivate. cbn. f_equal.
  set (r := ClassList.remove "active" (fb_classList b)).
  assert (ClassList.contains "active" r = false) as Hr
    by apply ClassListFacts.contains_remove.
  assert (ClassList.add "active" r = r ++ ["active"]) as ->.
  { unfold ClassList.add. by rewrite Hr. }
  rewrite ClassListFacts.remove_snoc.
  rewrite (ClassListFacts.remove_absent _ _ Hr).
  unfold ClassList.add. by rewrite Hr.
Qed.

(** X11.  Clicking the same filter button again changes nothing: once
    the fade timers have fired, the page after two clicks in a row on a
    button is the page after one. *)
Theorem filter_click_idempotent (k : nat) (g : Gallery) (btn : FilterBtn) :
  btns g !! k = Some btn →
  fire_fades (onFilterClick k (onFilterClick k g)) =
  fire_fades (onFilterClick k g).
Proof.
  intros Hk. rewrite (onFilterClick_spec k g btn Hk).
  set (flt := fb_filter btn).
  erewrite (onFilterClick_spec k _ (activate (deactivate btn))); last first.
  { cbn [btns]. by rewrite list_lookup_alter_eq, list_lookup_fmap, Hk. }
  cbn [btns cards msg fades activate deactivate fb_filter]. fold flt.
  rewrite shown_from_paint. unfold fire_fades. cbn [btns cards msg fades].
  f_equal.
  - apply list_eq. intros j. destruct (decide (k = j)) as [->|Hne].
    + rewrite !list_lookup_alter_eq, !list_lookup_fmap,
        list_lookup_alter_eq, list_lookup_fmap.
      destruct (btns g !! j); [|done]. cbn.
      by rewrite activate_deactivate_twice.
    + rewrite !list_lookup_alter_ne, !list_lookup_fmap,
        list_lookup_alter_ne, list_lookup_fmap by done.
      destruct (btns g !! j); [|done]. cbn.
      by rewrite deactivate_deactivate.
  - apply list_eq. intros j. rewrite !lookup_fold_fade, !list_lookup_fmap.
    assert (j ∈ (fades g ++ shown_from flt 0 (cards g))
                  ++ shown_from flt 0 (cards g) ↔
            j ∈ fades g ++ shown_from flt 0 (cards g)) as Hiff.
    { rewrite !elem_of_app. tauto. }
    rewrite (bool_decide_ext _ _ Hiff).
    destruct (cards g !! j); [|by case_bool_decide]. cbn.
    by rewrite paint_paint.
  - by destruct (msg g).
Qed.

(** X12.  [initPortfolio] gives every filter button one more listener,
    its own, and touches nothing else; on a page without filter buttons it
    does nothing.  So on a page whose buttons had no listeners, a click on
    button [k] after initialisation is one run of that button's listener. *)
Theorem init_wires_each_button (g : Gallery) :
  let g' := initPortfolio g in
  cards g' = cards g ∧ msg g' = msg g ∧ fades g' = fades g ∧
  length (btns g') = length (btns g) ∧
  (∀ k b, btns g !! k = Some b →
     ∃ b', btns g' !! k = Some b' ∧
       fb_classList b' = fb_classList b ∧ fb_filter b' = fb_filter b ∧
       fb_onclick b' = fb_onclick b ++ [k] ∧
       (fb_onclick b = [] → click k g' = onFilterClick k g')).
Proof.
  intros g'. subst g'. unfold initPortfolio. case_bool_decide as Hlen.
  - apply length_zero_iff_nil in Hlen. rewrite Hlen.
    split_and!; done.
  - cbn [btns cards msg fades]. split_and!; try done.
    { by rewrite length_imap. }
    intros k b Hb. eexists. rewrite list_lookup_imap, Hb. cbn.
    split_and!; try done.
    intros Hnil. unfold click. cbn [btns].
    rewrite list_lookup_imap, Hb. cbn. by rewrite Hnil.
Qed.

(** ** A sample page *)

Definition sample_btn (flt : string) (cl : list string) : FilterBtn :=
  {| fb_classList := cl; fb_filter := Some flt; fb_onclick := [] |}.

Definition sample_card (cat : string) : Card :=
  {| category := Some cat; display := ""; opacity := "" |}.

(** Three filters, two web projects, no app project. *)
Definition sample : Gallery :=
  {| btns := [sample_btn "all" ["filter-btn"; "active"];
              sample_btn "web" ["filter-btn"];
              sample_btn "app" ["filter-btn"]];
     cards := [sample_card "web"; sample_card "web"];
     msg := Some "none"; fades := [] |}.

Example sample_app_filter :
  click 2 (initPortfolio sample) =
  {| btns := [ {| fb_classList := ["filter-btn"]; fb_filter := Some "all";
                  fb_onclick := [0] |};
               {| fb_classList := ["filter-btn"]; fb_filter := Some "web";
                  fb_onclick := [1] |};
               {| fb_classList := ["filter-btn"; "active"];
                  fb_filter := Some "app"; fb_onclick := [2] |} ];
     cards := [ {| category := Some "web"; display := "none"; opacity := "" |};
                {| category := Some "web"; display := "none"; opacity := "" |} ];
     msg := Some "block"; fades := [] |}.
Proof. reflexivity. Qed.

Lemma filter_shows_matching_witness :
  length (cards (onFilterClick 1 sample)) = 2.
Proof.
  exact (proj1 (filter_shows_matching 1 sample (sample_btn "web" ["filter-btn"])
                  eq_refl)).
Defined.

Lemma message_iff_nothing_visible_witness :
  msg (onFilterClick 2 sample) = Some "block" ↔
  ∀ c, c ∈ cards (onFilterClick 2 sample) → display c ≠ "flex".
Proof.
  exact (proj1 (message_iff_nothing_visible 2 sample
                  (sample_btn "app" ["filter-btn"]) "none" eq_refl eq_refl)).
Defined.

Lemma exactly_one_active_witness :
  length (btns (onFilterClick 1 sample)) = 3.
Proof.
  exact (proj1 (exactly_one_active 1 sample (sample_btn "web" ["filter-btn"])
                  eq_refl)).
Defined.

Lemma shown_cards_fade_in_witness :
  fades (fire_fades (onFilterClick 0 sample)) = [].
Proof.
  exact (proj1 (shown_cards_fade_in 0 sample
                  (sample_btn "all" ["filter-btn"; "active"]) eq_refl)).
Defined.

Lemma filter_click_idempotent_witness :
  fire_fades (onFilterClick 1 (onFilterClick 1 sample)) =
  fire_fades (onFilterClick 1 sample).
Proof.
  exact (filter_click_idempotent 1 sample (sample_btn "web" ["filter-btn"])
           eq_refl).
Defined.

Lemma init_wires_each_button_witness :
  click 1 (initPortfolio sample) = onFilterClick 1 (initPortfolio sample).
Proof.
  destruct (init_wires_each_button sample) as (_ & _ & _ & _ & Hw).
  destruct (Hw 1 (sample_btn "web" ["filter-btn"]) eq_refl)
    as (b' & _ & _ & _ & _ & Hclick).
  exact (Hclick eq_refl).
Defined.

End Portfolio.


(** * The mobile menu

    [initMenu] (script.js, lines 167-182): the [.menu-toggle] button with
    its markup, the [.nav-links] list with its classes and the listeners
    of its links. *)
Module Menu.

(** ['<i class="fa-solid fa-xmark"></i>'] and
    ['<i class="fa-solid fa-bars"></i>'] *)
Definition xmark_icon : string :=
  "<i class=" +:+ dq +:+ "fa-solid fa-xmark" +:+ dq +:+ "></i>".

Definition bars_icon : string :=
  "<i class=" +:+ dq +:+ "fa-solid fa-bars" +:+ dq +:+ "></i>".

Inductive BtnHandler := ToggleMenu.   (* lines 171-176 *)
Inductive LinkHandler := CloseMenu.   (* line 179 *)

Record MenuBtn := {
  mb_innerHTML : string;
  mb_onclick : list BtnHandler;
}.

Record Nav := {
  nav_classList : list string;
  nav_links : list (list LinkHandler);   (* the [a] elements: their listeners *)
}.

Record Menu := {
  menuBtn : option MenuBtn;    (* [querySelector('.menu-toggle')] *)
  navLinks : option Nav;       (* [querySelector('.nav-links')] *)
}.

(** Whether the drawer is open. *)
Definition is_open (m : Menu) : option bool :=
  ClassList.contains "open" ∘ nav_classList <$> navLinks m.

(** Lines 171-176.  The listener exists only when both elements were
    found. *)
Definition onMenuClick (m : Menu) : Menu :=
  match menuBtn m, navLinks m with
  | Some b, Some n =>
      let cl := (ClassList.toggle "open" (nav_classList n)).1 in
      {| menuBtn :=
           Some {| mb_innerHTML := if ClassList.contains "open" cl
                                   then xmark_icon else bars_icon;
                   mb_onclick := mb_onclick b |};
         navLinks := Some {| nav_classList := cl; nav_links := nav_links n |} |}
  | _, _ => m
  end.

(** Line 179: [navLinks.classList.remove('open')]. *)
Definition onLinkClick (m : Menu) : Menu :=
  match navLinks m with
  | Some n =>
      {| menuBtn := menuBtn m;
         navLinks := Some {| nav_classList :=
                               ClassList.remove "open" (nav_classList n);
                             nav_links := nav_links n |} |}
  | None => m
  end.

(** Lines 167-182. *)
Definition initMenu (m : Menu) : Menu :=
  match menuBtn m, navLinks m with
  | Some b, Some n =>
      {| menuBtn := Some {| mb_innerHTML := mb_innerHTML b;
                            mb_onclick := mb_onclick b ++ [ToggleMenu] |};
         navLinks := Some {| nav_classList := nav_classList n;
                             nav_links := (λ hs, hs ++ [CloseMenu])
                                            <$> nav_links n |} |}
  | _, _ => m
  end.

(** A click on the button, a click on link [j]: the listeners run in the
    order they were added. *)
Definition click_button (m : Menu) : Menu :=
  match menuBtn m with
  | Some b => foldl (λ m' h, match h with ToggleMenu => onMenuClick m' end)
                    m (mb_onclick b)
  | None => m
  end.

Definition click_link (j : nat) (m : Menu) : Menu :=
  match navLinks m with
  | Some n =>
      match nav_links n !! j with
      | Some hs => foldl (λ m' h, match h with CloseMenu => onLinkClick m' end)
                         m hs
      | None => m
      end
  | None => m
  end.

Lemma xmark_bars_distinct : xmark_icon ≠ bars_icon.
Proof. by vm_compute. Qed.

(** X13.  After a click on the menu button the drawer is in the other
    state and the button shows what the drawer is: the x-mark exactly when
    the drawer is open, the bars exactly when it is closed.  The links and
    the listeners stay as they were. *)
Theorem menu_icon_follows_drawer (m : Menu) (b : MenuBtn) (n : Nav) :
  menuBtn m = Some b →
  navLinks m = Some n →
  let m' := onMenuClick m in
  is_open m' = negb <$> is_open m ∧
  nav_links <$> navLinks m' = Some (nav_links n) ∧
  ∃ b', menuBtn m' = Some b' ∧ mb_onclick b' = mb_onclick b ∧
    (mb_innerHTML b' = xmark_icon ↔ is_open m' = Some true) ∧
    (mb_innerHTML b' = bars_icon ↔ is_open m' = Some false).
Proof.
  intros Hb Hn m'. subst m'. unfold onMenuClick, is_open. rewrite Hb, Hn.
  cbn. rewrite ClassListFacts.contains_toggle. split_and!; [done..|].
  eexists. split_and!; [done..| |]; cbn;
    destruct (ClassList.contains "open" (nav_classList n)); cbn;
    (split; intros Hicon; try done);
    first [by vm_compute in Hicon | congruence].
Qed.

(** A page with a closed drawer holding one link. *)
Definition bars_btn : MenuBtn := {| mb_innerHTML := bars_icon; mb_onclick := [] |}.
Definition one_link : Nav := {| nav_classList := ["nav-links"]; nav_links := [[]] |}.
Definition closed_menu : Menu := {| menuBtn := Some bars_btn; navLinks := Some one_link |}.

Lemma menu_icon_follows_drawer_witness :
  is_open (onMenuClick closed_menu) = Some true.
Proof.
  exact (proj1 (menu_icon_follows_drawer closed_menu bars_btn one_link
                  eq_refl eq_refl)).
Defined.

(** X14.  A click on a link closes the drawer and leaves the button
    alone.  So after the drawer was opened with the button and closed with
    a link, the button still shows the x-mark over a closed drawer; the
    next click on the button opens the drawer again. *)
Theorem link_click_keeps_icon (m : Menu) (b : MenuBtn) (n : Nav) :
  menuBtn m = Some b →
  navLinks m = Some n →
  (let m' := onLinkClick m in
   is_open m' = Some false ∧ menuBtn m' = menuBtn m ∧
   nav_links <$> navLinks m' = Some (nav_links n)) ∧
  (is_open m = Some false →
   let m2 := onLinkClick (onMenuClick m) in
   is_open m2 = Some false ∧
   mb_innerHTML <$> menuBtn m2 = Some xmark_icon ∧
   is_open (onMenuClick m2) = Some true).
Proof.
  intros Hb Hn. split.
  - unfold onLinkClick, is_open. rewrite Hn. cbn.
    by rewrite ClassListFacts.contains_remove.
  - unfold is_open. rewrite Hn. cbn. intros [= Hclosed].
    unfold onMenuClick. rewrite Hb, Hn. cbn.
    rewrite ClassListFacts.contains_toggle, Hclosed. cbn.
    unfold onLinkClick. cbn. unfold onMenuClick. cbn.
    rewrite ClassListFacts.contains_toggle.
    by rewrite !ClassListFacts.contains_remove.
Qed.

Lemma link_click_keeps_icon_witness :
  is_open (onLinkClick (onMenuClick closed_menu)) = Some false ∧
  mb_innerHTML <$> menuBtn (onLinkClick (onMenuClick closed_menu))
    = Some xmark_icon.
Proof.
  destruct (link_click_keeps_icon closed_menu bars_btn one_link
              eq_refl eq_refl) as [_ H].
  destruct (H eq_refl) as (Ho & Hi & _). exact (conj Ho Hi).
Defined.

(** X15.  [initMenu] needs both elements: when the button or the list is
    missing it attaches nothing.  When both exist and carry no listeners
    yet, a click on the button is one run of the toggle listener and a
    click on any link one run of the closing listener. *)
Theorem init_menu_wires (m : Menu) :
  (menuBtn m = None ∨ navLinks m = None → initMenu m = m) ∧
  (∀ b n, menuBtn m = Some b → navLinks m = Some n →
     mb_onclick b = [] →
     click_button (initMenu m) = onMenuClick (initMenu m) ∧
     ∀ j, nav_links n !! j = Some [] →
          click_link j (initMenu m) = onLinkClick (initMenu m)).
Proof.
  split.
  - unfold initMenu. intros [Hb|Hn]; [by rewrite Hb|].
    rewrite Hn. by destruct (menuBtn m).
  - intros b n Hb Hn Hnil. unfold initMenu. rewrite Hb, Hn, Hnil. split.
    + done.
    + intros j Hj. unfold click_link. cbn.
      by rewrite list_lookup_fmap, Hj.
Qed.

Lemma init_menu_wires_witness :
  click_button (initMenu closed_menu) = onMenuClick (initMenu closed_menu).
Proof.
  exact (proj1 (proj2 (init_menu_wires closed_menu) bars_btn one_link
                  eq_refl eq_refl eq_refl)).
Defined.

End Menu.


(** * The scroll buttons

    The scroll listener of [initDirectionalScroll] (script.js, lines
    67-93) with the variable [lastScrollY] it closes over.  Scroll
    positions are numbers of the browser; the listener only compares and
    subtracts them, so the number type and these operations are
    parameters. *)
Module Scroll.

Lemma contains_add_other (c d : string) (cl : list string) :
  c ≠ d → ClassList.contains c (ClassList.add d cl) = ClassList.contains c cl.
Proof.
  intros Hne. unfold ClassList.add. destruct (ClassList.contains d cl); [done|].
  unfold ClassList.contains. apply bool_decide_ext.
  rewrite elem_of_app, list_elem_of_singleton.
  split; [|auto]. by intros [?|?].
Qed.

Lemma contains_remove_other (c d : string) (cl : list string) :
  c ≠ d →
  ClassList.contains c (ClassList.remove d cl) = ClassList.contains c cl.
Proof.
  intros Hne. unfold ClassList.contains, ClassList.remove.
  apply bool_decide_ext. rewrite list_elem_of_filter.
  split; [by intros [? ?]|]. intros Hin. split; [|done].
  intros ->. by apply Hne.
Qed.

Section scroll.

Variable num : Type.
Variables gt lt : num → num → bool.   (* [>] and [<] *)
Variable sub : num → num → num.       (* [-] *)
Variable fifty : num.                 (* [50] *)

Record Scroller := {
  btnUp : option (list string);     (* classes of #btnPageUp, None: no element *)
  btnDown : option (list string);   (* classes of #btnPageDown *)
  lastScrollY : num;
}.

(** What the listener reads when the event arrives: [window.scrollY],
    [document.body.scrollHeight] ([None]: no body) and
    [window.innerHeight]. *)
Record Viewport := {
  scrollY : num;
  body_scrollHeight : option num;
  innerHeight : num;
}.

(** Lines 67-93. *)
Definition onScroll (v : Viewport) (s : Scroller) : (() + exn) * Scroller :=
  let currentScrollY := scrollY v in
  match body_scrollHeight v with
  | None => (inr TypeError, s)
  | Some scrollHeight =>
      let maxScroll := sub scrollHeight (innerHeight v) in
      if gt currentScrollY (lastScrollY s) then
        (inl (),
         {| btnUp := ClassList.remove "show" <$> btnUp s;
            btnDown :=
              match btnDown s with
              | Some cl =>
                  if lt currentScrollY (sub maxScroll fifty)
                  then Some (ClassList.add "show" cl)
                  else Some (ClassList.remove "show" cl)
              | None => None
              end;
            lastScrollY := currentScrollY |})
      else
        (inl (),
         {| btnUp :=
              match btnUp s with
              | Some cl =>
                  if gt currentScrollY fifty
                  then Some (ClassList.add "show" cl)
                  else Some (ClassList.remove "show" cl)
              | None => None
              end;
            btnDown := ClassList.remove "show" <$> btnDown s;
            lastScrollY := currentScrollY |})
  end.

(** Whether a button is shown. *)
Definition shown (b : option (list string)) : bool :=
  match b with
  | Some cl => ClassList.contains "show" cl
  | None => false
  end.

(** Which button the listener leaves shown. *)
Lemma onScroll_shown (v : Viewport) (s : Scroller) (scrollHeight : num) :
  body_scrollHeight v = Some scrollHeight →
  (onScroll v s).1 = inl () ∧
  shown (btnUp (onScroll v s).2) =
    bool_decide (is_Some (btnUp s)) &&
    negb (gt (scrollY v) (lastScrollY s)) && gt (scrollY v) fifty ∧
  shown (btnDown (onScroll v s).2) =
    bool_decide (is_Some (btnDown s)) && gt (scrollY v) (lastScrollY s) &&
    lt (scrollY v) (sub (sub scrollHeight (innerHeight v)) fifty).
Proof.
  intros Hb. unfold onScroll. rewrite Hb.
  destruct (gt (scrollY v) (lastScrollY s)); cbn [fst snd btnUp btnDown
    lastScrollY negb andb]; (split; [done|]); split.
  - destruct (btnUp s); cbn; [|done].
    by rewrite ClassListFacts.contains_remove.
  - destruct (btnDown s); cbn; [|done].
    destruct (lt _ _); cbn;
      by rewrite ?ClassListFacts.contains_add,
                 ?ClassListFacts.contains_remove.
  - destruct (btnUp s); cbn; [|done].
    destruct (gt _ _); cbn;
      by rewrite ?ClassListFacts.contains_add,
                 ?ClassListFacts.contains_remove.
  - destruct (btnDown s); cbn; [|done].
    by rewrite ClassListFacts.contains_remove.
Qed.

(** X16.  After a scroll event on a page with a body, which button is
    shown depends on the event alone, not on which was shown before: the
    up button (when it exists) exactly when the position did not grow and
    is above 50, the down button (when it exists) exactly when the position
    grew and is below the maximum minus 50.  The position is remembered, a
    missing button stays missing, and no class other than ["show"] is
    touched. *)
Theorem scroll_buttons_follow_direction
    (v : Viewport) (s : Scroller) (scrollHeight : num) :
  body_scrollHeight v = Some scrollHeight →
  let s' := (onScroll v s).2 in
  let grew := gt (scrollY v) (lastScrollY s) in
  (onScroll v s).1 = inl () ∧
  lastScrollY s' = scrollY v ∧
  shown (btnUp s') =
    bool_decide (is_Some (btnUp s)) && negb grew && gt (scrollY v) fifty ∧
  shown (btnDown s') =
    bool_decide (is_Some (btnDown s)) && grew &&
    lt (scrollY v) (sub (sub scrollHeight (innerHeight v)) fifty) ∧
  (∀ c, c ≠ "show" →
     (ClassList.contains c <$> btnUp s') = (ClassList.contains c <$> btnUp s) ∧
     (ClassList.contains c <$> btnDown s')
       = (ClassList.contains c <$> btnDown s)).
Proof.
  intros Hb s' grew. subst s' grew.
  destruct (onScroll_shown v s scrollHeight Hb) as (Ho & Hu & Hd).
  split_and!; [done| |done..|].
  - unfold onScroll. rewrite Hb. by destruct (gt _ _).
  - intros c Hc. unfold onScroll. rewrite Hb.
    destruct (gt (scrollY v) (lastScrollY s)); cbn [snd btnUp btnDown]; split.
    + destruct (btnUp s); cbn; [|done]. by rewrite contains_remove_other.
    + destruct (btnDown s); cbn; [|done].
      destruct (lt _ _); cbn;
        by rewrite ?contains_add_other, ?contains_remove_other.
    + destruct (btnUp s); cbn; [|done].
      destruct (gt _ _); cbn;
        by rewrite ?contains_add_other, ?contains_remove_other.
    + destruct (btnDown s); cbn; [|done]. by rewrite contains_remove_other.
Qed.

(** X17.  The two buttons are never shown together: whatever the page
    and the event, after the listener ran at most one of them carries
    ["show"].  (Without a body the listener throws and leaves the page as
    it was.) *)
Theorem scroll_never_shows_both (v : Viewport) (s : Scroller) :
  match (onScroll v s).1 with
  | inl _ =>
      shown (btnUp (onScroll v s).2) && shown (btnDown (onScroll v s).2)
      = false
  | inr _ => (onScroll v s).2 = s
  end.
Proof.
  destruct (body_scrollHeight v) as [h|] eqn:Hb.
  - destruct (onScroll_shown v s h Hb) as (Ho & Hu & Hd).
    rewrite Ho, Hu, Hd.
    destruct (gt (scrollY v) (lastScrollY s)); cbn;
      by rewrite ?andb_false_r.
  - unfold onScroll. by rewrite Hb.
Qed.

Lemma onScroll_keeps (v : Viewport) (s : Scroller) (scrollHeight : num) :
  body_scrollHeight v = Some scrollHeight →
  lastScrollY (onScroll v s).2 = scrollY v ∧
  bool_decide (is_Some (btnUp (onScroll v s).2))
    = bool_decide (is_Some (btnUp s)) ∧
  bool_decide (is_Some (btnDown (onScroll v s).2))
    = bool_decide (is_Some (btnDown s)).
Proof.
  intros Hb. unfold onScroll. rewrite Hb.
  destruct (gt (scrollY v) (lastScrollY s)); cbn [snd btnUp btnDown lastScrollY];
    (split; [done|]); split;
    try (by destruct (btnUp s)); try (by destruct (btnDown s)).
  - destruct (btnDown s); [|done]. by destruct (lt _ _).
  - destruct (btnUp s); [|done]. by destruct (gt _ _).
Qed.

(** X18.  An event that does not move the page counts as scrolling up.
    When no number is greater than itself, a second scroll event at the
    position of the first hides the down button, and shows the up button
    (if there is one) whenever the position is above 50, whatever the first
    event had shown. *)
Theorem scroll_without_movement
    (v : Viewport) (s : Scroller) (scrollHeight : num) :
  body_scrollHeight v = Some scrollHeight →
  (∀ x, gt x x = false) →
  let s2 := (onScroll v (onScroll v s).2).2 in
  shown (btnDown s2) = false ∧
  shown (btnUp s2) = bool_decide (is_Some (btnUp s)) && gt (scrollY v) fifty.
Proof.
  intros Hb Hirr s2. subst s2.
  destruct (onScroll_keeps v s scrollHeight Hb) as (Hlast & Hup & Hdown).
  destruct (onScroll_shown v (onScroll v s).2 scrollHeight Hb)
    as (_ & Hu & Hd).
  rewrite Hu, Hd, Hlast, Hirr, Hup. cbn.
  by rewrite andb_false_r, andb_true_r.
Qed.

End scroll.

(** ** With whole pixels *)

Definition onScrollZ : Viewport Z → Scroller Z → (() + exn) * Scroller Z :=
  onScroll Z Z.gtb Z.ltb Z.sub 50%Z.

Definition at_top : Scroller Z :=
  {| btnUp := Some ["scroll-btn"]; btnDown := Some ["scroll-btn"];
     lastScrollY := 0%Z |}.

Definition scrolled_down : Viewport Z :=
  {| scrollY := 200%Z; body_scrollHeight := Some 2000%Z;
     innerHeight := 800%Z |}.

Example scrolled_down_shows_down :
  onScrollZ scrolled_down at_top =
  (inl (), {| btnUp := Some ["scroll-btn"];
              btnDown := Some ["scroll-btn"; "show"];
              lastScrollY := 200%Z |}).
Proof. reflexivity. Qed.

(** A second event at the same position takes the other branch. *)
Example same_position_shows_up :
  onScrollZ scrolled_down (onScrollZ scrolled_down at_top).2 =
  (inl (), {| btnUp := Some ["scroll-btn"; "show"];
              btnDown := Some ["scroll-btn"];
              lastScrollY := 200%Z |}).
Proof. reflexivity. Qed.

Lemma Zgtb_irrefl (x : Z) : (x >? x)%Z = false.
Proof. rewrite Z.gtb_ltb. apply Z.ltb_irrefl. Qed.

Lemma scroll_without_movement_witness :
  shown (btnDown Z (onScrollZ scrolled_down
                      (onScrollZ scrolled_down at_top).2).2) = false.
Proof.
  exact (proj1 (scroll_without_movement Z Z.gtb Z.ltb Z.sub 50%Z
                  scrolled_down at_top 2000%Z eq_refl Zgtb_irrefl)).
Defined.

Lemma scroll_buttons_follow_direction_witness :
  shown (btnDown Z (onScrollZ scrolled_down at_top).2) = true.
Proof.
  destruct (scroll_buttons_follow_direction Z Z.gtb Z.ltb Z.sub 50%Z
              scrolled_down at_top 2000%Z eq_refl) as (_ & _ & _ & Hd & _).
  exact Hd.
Defined.

End Scroll.


(** * The theme code across events

    How page load, clicks and colour-scheme changes of the two theme
    implementations compose. *)
Module ThemeEvents.

Lemma chain_choice_theme_name (b sys : bool) :
  chain_choice (Some (theme_name b)) sys = b.
Proof. by destruct b. Qed.

(** The click listener of an implementation. *)
Definition onClick (i : Impl) : JS () :=
  match i with
  | Local => LocalTheme.onClick
  | Session => SessionTheme.onClick
  end.

Definition handler (i : Impl) : ClickHandler :=
  match i with
  | Local => LocalClick
  | Session => SessionClick
  end.

(** The click listener on a page with a body, for either implementation:
    it completes, the theme flips, its name is stored. *)
Lemma onClick_applied (i : Impl) (w : World) (cl : ClassList.t) :
  body w = Some cl →
  let d := ClassList.contains "dark-theme" cl in
  outcome (onClick i) w = inl () ∧
  applied (after (onClick i) w) = Some (of_bool (negb d)) ∧
  store i (after (onClick i) w) = <["theme" := theme_name (negb d)]> (store i w) ∧
  toggleBtn (after (onClick i) w) = draw (negb d) <$> toggleBtn w ∧
  mediaQuery (after (onClick i) w) = mediaQuery w.
Proof.
  intros Hb d. subst d. unfold after, outcome.
  destruct i; cbn [onClick store].
  - rewrite (local_onClick_body w cl Hb). cbn [fst snd]. split_and!; try done.
    erewrite applied_body by reflexivity.
    by rewrite ClassListFacts.contains_toggle.
  - rewrite (session_onClick_body w cl Hb). cbn [fst snd]. split_and!; try done.
    erewrite applied_body by reflexivity. by rewrite contains_add_remove.
Qed.

(** X19.  The choice made with the toggle survives a reload.  Take the
    storage a click left behind to a freshly loaded page, whatever classes
    its body has and whatever the system prefers: page load applies the
    theme that was applied after the click. *)
Theorem toggle_survives_reload
    (i : Impl) (w w2 : World) (cl cl2 : ClassList.t) :
  body w = Some cl →
  body w2 = Some cl2 →
  store i w2 = store i (after (onClick i) w) →
  outcome (initTheme i) w2 = inl () ∧
  applied (after (initTheme i) w2) = applied (after (onClick i) w).
Proof.
  intros Hb Hb2 Hstore.
  destruct (onClick_applied i w cl Hb) as (_ & Ha & Hs & _).
  assert (store i w2 !! "theme"
          = Some (theme_name (negb (ClassList.contains "dark-theme" cl))))
    as Hsaved by (by rewrite Hstore, Hs, lookup_insert_eq).
  destruct (initTheme_applied i w2 cl2 Hb2) as [Ho Ha2].
  { intros _ Hd Hl. rewrite Hsaved in Hd, Hl.
    by destruct (ClassList.contains "dark-theme" cl). }
  split; [done|]. by rewrite Ha2, Ha, Hsaved, chain_choice_theme_name.
Qed.

Lemma toggle_survives_reload_witness :
  applied (after (initTheme Local)
             (set_localStorage {[ "theme" := "dark" ]} markup_dark_page))
  = applied (after (onClick Local) blank_page).
Proof.
  exact (proj2 (toggle_survives_reload Local blank_page
                  (set_localStorage {[ "theme" := "dark" ]} markup_dark_page)
                  [] ["dark-theme"] eq_refl eq_refl eq_refl)).
Defined.

(** X20.  After page load on a page with a body and a toggle control
    that had no listener, a click is exactly one run of the click listener
    of the loaded script: the applied theme flips and its name is
    stored. *)
Theorem click_after_load_toggles
    (i : Impl) (w : World) (cl : ClassList.t) (btn : Button) :
  body w = Some cl →
  toggleBtn w = Some btn →
  onclick btn = [] →
  let w1 := after (fire (PageLoad i)) w in
  let w2 := after (fire Click) w1 in
  outcome (fire Click) w1 = inl () ∧
  w2 = after (onClick i) w1 ∧
  applied w2 = opposite <$> applied w1 ∧
  store i w2 !! "theme" = stored_name <$> applied w2.
Proof.
  intros Hb Ht Hnil w1 w2.
  assert (∃ cl1 b1, body w1 = Some cl1 ∧ toggleBtn w1 = Some b1 ∧
                    onclick b1 = [handler i]) as (cl1 & b1 & Hb1 & Ht1 & Hh).
  { subst w1. unfold after. cbn [fire]. destruct i; cbn [initTheme].
    - rewrite (local_initTheme_body w cl Hb). cbn [snd body toggleBtn].
      rewrite Ht. cbn [fmap option_fmap option_map].
      eexists _, _. split_and!; [done..|]. cbn. by rewrite Hnil.
    - rewrite (session_initTheme_body w cl Hb). cbn [snd body toggleBtn].
      rewrite Ht. cbn [fmap option_fmap option_map].
      eexists _, _. split_and!; [done..|]. cbn. by rewrite Hnil. }
  destruct (onClick_applied i w1 cl1 Hb1) as (Ho & Ha & Hs & _).
  assert (fire Click w1 = onClick i w1) as Hfire.
  { cbn [fire]. rewrite Ht1, Hh. cbn [dispatch handler].
    unfold outcome in Ho. destruct i; cbn [handler run_click onClick] in *.
    - destruct (LocalTheme.onClick w1) as [[[]|e] w']; done.
    - destruct (SessionTheme.onClick w1) as [[[]|e] w']; done. }
  subst w2. unfold after, outcome in *. rewrite Hfire.
  split_and!; [done..| |].
  - rewrite Ha, (applied_body w1 cl1 Hb1). cbn. by rewrite of_bool_negb.
  - rewrite Hs, Ha, lookup_insert_eq. cbn. by rewrite theme_name_of_bool.
Qed.

Lemma click_after_load_toggles_witness :
  applied (after (fire Click) (after (fire (PageLoad Session)) blank_page))
  = Some Dark.
Proof.
  destruct (click_after_load_toggles Session blank_page [] plain_button
              eq_refl eq_refl eq_refl) as (_ & _ & Ha & _).
  exact Ha.
Defined.

(** The colour-scheme listener does nothing once a theme name is
    stored. *)
Lemma onChange_locked (m b : bool) (w : World) :
  sessionStorage w !! "theme" = Some (theme_name b) →
  SessionTheme.onChange m w = (inl (), w).
Proof.
  intros Hs. rewrite session_onChange_body, Hs. by destruct b.
Qed.

(** X21.  A choice made with the toggle locks the theme against the
    system.  After the click listener of part_000 ran on a page with a
    body, a colour-scheme change, whatever it reports and however many
    copies of the listener are attached, is handled without a throw and
    changes nothing but the media query's own value. *)
Theorem choice_locks_out_system (w : World) (cl : ClassList.t) (m : bool) :
  body w = Some cl →
  let w1 := after SessionTheme.onClick w in
  outcome (fire (SystemChange m)) w1 = inl () ∧
  after (fire (SystemChange m)) w1 =
  set_mediaQuery {| matches := m; onchange := onchange (mediaQuery w1) |} w1.
Proof.
  intros Hb w1.
  destruct (onClick_applied Session w cl Hb) as (_ & _ & Hs & _).
  cbn [onClick store] in Hs. fold w1 in Hs.
  set (w1' := set_mediaQuery
                {| matches := m; onchange := onchange (mediaQuery w1) |} w1).
  assert (outcome (dispatch (run_change m) (onchange (mediaQuery w1))) w1'
            = inl () ∧
          after (dispatch (run_change m) (onchange (mediaQuery w1))) w1' = w1')
    as Hd.
  { apply (dispatch_invariant (run_change m) (λ x, x = w1')); [|done].
    intros [] x ->. unfold outcome, after. cbn [run_change].
    rewrite (onChange_locked m
               (negb (ClassList.contains "dark-theme" cl))); [done|].
    subst w1'. cbn. by rewrite Hs, lookup_insert_eq. }
  exact Hd.
Qed.

Lemma choice_locks_out_system_witness :
  applied (after (fire (SystemChange false))
             (after SessionTheme.onClick blank_page)) = Some Dark.
Proof.
  rewrite (proj2 (choice_locks_out_system blank_page [] false eq_refl)).
  reflexivity.
Defined.

(** X22.  Loading a script twice disables the toggle.  After two page
    loads with the same script on a page with a body and a control that had
    no listener, a click runs the listener twice: the applied theme is
    what it was before the click, and its name is what ends up stored. *)
Theorem double_load_disables_toggle
    (i : Impl) (w : World) (cl : ClassList.t) (btn : Button) :
  body w = Some cl →
  toggleBtn w = Some btn →
  onclick btn = [] →
  let w2 := after (fire (PageLoad i)) (after (fire (PageLoad i)) w) in
  let w3 := after (fire Click) w2 in
  outcome (fire Click) w2 = inl () ∧
  applied w3 = applied w2 ∧
  store i w3 !! "theme" = stored_name <$> applied w2.
Proof.
  intros Hb Ht Hnil w2 w3.
  assert (∃ cl2 b2, body w2 = Some cl2 ∧ toggleBtn w2 = Some b2 ∧
                    onclick b2 = [handler i; handler i])
    as (cl2 & b2 & Hb2 & Ht2 & Hh).
  { subst w2. unfold after. cbn [fire]. destruct i; cbn [initTheme].
    - rewrite (local_initTheme_body w cl Hb).
      erewrite local_initTheme_body by reflexivity.
      cbn [snd body toggleBtn]. rewrite Ht. cbn [fmap option_fmap option_map].
      eexists _, _. split_and!; [done..|]. cbn. by rewrite Hnil.
    - rewrite (session_initTheme_body w cl Hb).
      erewrite session_initTheme_body by reflexivity.
      cbn [snd body toggleBtn]. rewrite Ht. cbn [fmap option_fmap option_map].
      eexists _, _. split_and!; [done..|]. cbn. by rewrite Hnil. }
  set (d := ClassList.contains "dark-theme" cl2).
  destruct (onClick_applied i w2 cl2 Hb2) as (Ho1 & Ha1 & Hs1 & _).
  fold d in Ha1, Hs1.
  assert (is_Some (body (after (onClick i) w2))) as [cl3 Hb3].
  { unfold applied in Ha1. destruct (body (after (onClick i) w2)); eauto.
    done. }
  destruct (onClick_applied i _ cl3 Hb3) as (Ho2 & Ha2 & Hs2 & _).
  assert (ClassList.contains "dark-theme" cl3 = negb d) as Hd3.
  { rewrite (applied_body _ cl3 Hb3) in Ha1. injection Ha1.
    by destruct (ClassList.contains "dark-theme" cl3), d. }
  rewrite Hd3, negb_involutive in Ha2, Hs2.
  assert (fire Click w2 =
          (inl (), after (onClick i) (after (onClick i) w2))) as Hfire.
  { cbn [fire]. rewrite Ht2, Hh. cbn [dispatch].
    assert (run_click (handler i) = onClick i) as -> by (by destruct i).
    unfold outcome, after in *.
    destruct (onClick i w2) as [[[]|e] wa]; [|done]. cbn [fst snd] in *.
    destruct (onClick i wa) as [[[]|e] wb]; done. }
  assert (w3 = after (onClick i) (after (onClick i) w2)) as ->.
  { subst w3. unfold after at 1. by rewrite Hfire. }
  split; [unfold outcome; by rewrite Hfire|].
  rewrite Ha2, Hs2, lookup_insert_eq, (applied_body w2 cl2 Hb2). fold d.
  by rewrite theme_name_of_bool.
Qed.

Lemma double_load_disables_toggle_witness :
  applied (after (fire Click)
             (after (fire (PageLoad Local))
                (after (fire (PageLoad Local)) blank_page))) = Some Light.
Proof.
  destruct (double_load_disables_toggle Local blank_page [] plain_button
              eq_refl eq_refl eq_refl) as (_ & Ha & _).
  exact Ha.
Defined.

(** X23.  script.js never follows the system after page load: on a page
    whose media query had no listener, a colour-scheme change after page
    load with script.js only updates the media query's own value. *)
Theorem local_ignores_system_change (w : World) (m : bool) :
  onchange (mediaQuery w) = [] →
  let w1 := after (fire (PageLoad Local)) w in
  fire (SystemChange m) w1 =
  (inl (), set_mediaQuery {| matches := m; onchange := [] |} w1).
Proof.
  intros Hnil w1. cbn [fire]. subst w1. cbn [fire initTheme].
  by rewrite local_init_no_change_listener, Hnil.
Qed.

Lemma local_ignores_system_change_witness :
  applied (after (fire (SystemChange true))
             (after (fire (PageLoad Local)) blank_page)) = Some Light.
Proof.
  unfold after at 1.
  rewrite (local_ignores_system_change blank_page true eq_refl).
  reflexivity.
Defined.

(** X24.  part_000 follows the system while nothing is stored: after page
    load on a page with a body, no stored theme and no listener on the
    media query, a colour-scheme change applies the reported preference and
    draws the matching icon, and still stores nothing. *)
Theorem session_follows_system_live (w : World) (cl : ClassList.t) (m : bool) :
  body w = Some cl →
  sessionStorage w !! "theme" = None →
  onchange (mediaQuery w) = [] →
  let w2 := after (fire (SystemChange m)) (after (fire (PageLoad Session)) w) in
  applied w2 = Some (of_bool m) ∧
  icon w2 = ((λ _, icon_of m) <$> toggleBtn w) ∧
  sessionStorage w2 = sessionStorage w.
Proof.
  intros Hb Hs Hnil w2.
  destruct (session_init_change_listener w m (ex_intro _ cl Hb) Hnil)
    as [_ Hfire]. cbn [fire initTheme] in w2. subst w2.
  unfold after at 1 3 5. cbn [fire initTheme] in Hfire |- *.
  unfold after at 1 in Hfire. rewrite Hfire. clear Hfire.
  unfold after. rewrite (session_initTheme_body w cl Hb). cbn [snd].
  rewrite session_onChange_body. cbn [sessionStorage set_mediaQuery].
  rewrite Hs. cbn [Js.truthy].
  erewrite applyTheme_body by reflexivity. cbn [snd].
  split_and!; [|by destruct (toggleBtn w)|done].
  erewrite applied_body by reflexivity. by rewrite contains_add_remove.
Qed.

Lemma session_follows_system_live_witness :
  applied (after (fire (SystemChange true))
             (after (fire (PageLoad Session)) blank_page)) = Some Dark.
Proof.
  exact (proj1 (session_follows_system_live blank_page [] true
                  eq_refl eq_refl eq_refl)).
Defined.

End ThemeEvents.


(** * Regular expressions

    What [RegExp.prototype.test] decides for a pattern anchored at both
    ends and built from character classes, sequence, alternative and
    repetition: whether the whole string is in the pattern's language.
    The matcher works by derivatives. *)
Module Regex.

Section regex.

Context {char : Type}.

Inductive re :=
  | Void                         (* matches nothing *)
  | Eps                          (* the empty string *)
  | Class (p : char → bool)      (* one character of a class *)
  | Cat (r s : re)               (* [rs] *)
  | Alt (r s : re)               (* [r|s] *)
  | Star (r : re).               (* [r*] *)

(** [r+] *)
Definition Plus (r : re) : re := Cat r (Star r).

Inductive matches : re → list char → Prop :=
  | m_eps : matches Eps []
  | m_class p c : p c = true → matches (Class p) [c]
  | m_cat r s u v : matches r u → matches s v → matches (Cat r s) (u ++ v)
  | m_alt_l r s u : matches r u → matches (Alt r s) u
  | m_alt_r r s u : matches s u → matches (Alt r s) u
  | m_star_nil r : matches (Star r) []
  | m_star_cons r u v :
      matches r u → matches (Star r) v → matches (Star r) (u ++ v).

Fixpoint nullable (r : re) : bool :=
  match r with
  | Void => false
  | Eps => true
  | Class _ => false
  | Cat r s => nullable r && nullable s
  | Alt r s => nullable r || nullable s
  | Star _ => true
  end.

Fixpoint deriv (c : char) (r : re) : re :=
  match r with
  | Void => Void
  | Eps => Void
  | Class p => if p c then Eps else Void
  | Cat r s =>
      if nullable r then Alt (Cat (deriv c r) s) (deriv c s)
      else Cat (deriv c r) s
  | Alt r s => Alt (deriv c r) (deriv c s)
  | Star r => Cat (deriv c r) (Star r)
  end.

(** [/^r$/.test(s)] *)
Fixpoint test (r : re) (s : list char) : bool :=
  match s with
  | [] => nullable r
  | c :: s' => test (deriv c r) s'
  end.

Lemma matches_void_inv (w : list char) : ¬ matches Void w.
Proof. intros H. inversion H. Qed.

Lemma matches_eps_inv (w : list char) : matches Eps w → w = [].
Proof. intros H. by inversion H. Qed.

Lemma matches_class_inv (p : char → bool) (w : list char) :
  matches (Class p) w → ∃ c, w = [c] ∧ p c = true.
Proof. intros H. inversion H; subst. eauto. Qed.

Lemma matches_cat_inv (r s : re) (w : list char) :
  matches (Cat r s) w → ∃ u v, w = u ++ v ∧ matches r u ∧ matches s v.
Proof. intros H. inversion H; subst. eauto. Qed.

Lemma matches_alt_inv (r s : re) (w : list char) :
  matches (Alt r s) w → matches r w ∨ matches s w.
Proof. intros H. inversion H; subst; auto. Qed.

Lemma nullable_matches (r : re) : nullable r = true ↔ matches r [].
Proof.
  induction r as [| |p|r IHr s IHs|r IHr s IHs|r IHr]; cbn [nullable].
  - split; [done|]. by intros ?%matches_void_inv.
  - split; [constructor|done].
  - split; [done|]. by intros (c & ? & _)%matches_class_inv.
  - rewrite andb_true_iff, IHr, IHs. split.
    + intros [Hr Hs]. by apply (m_cat r s [] []).
    + intros (u & v & Heq & Hu & Hv)%matches_cat_inv.
      symmetry in Heq. by apply app_eq_nil in Heq as [-> ->].
  - rewrite orb_true_iff, IHr, IHs. split.
    + intros [?|?]; [by apply m_alt_l|by apply m_alt_r].
    + apply matches_alt_inv.
  - split; [constructor|done].
Qed.

(** A non-empty match of a sequence starts in the first part, or the
    first part matches the empty string and it is all in the second. *)
Lemma matches_cat_cons (r s : re) (c : char) (w : list char) :
  matches (Cat r s) (c :: w) ↔
  (∃ u v, w = u ++ v ∧ matches r (c :: u) ∧ matches s v) ∨
  (matches r [] ∧ matches s (c :: w)).
Proof.
  split.
  - intros (u & v & Heq & Hu & Hv)%matches_cat_inv.
    destruct u as [|c' u]; cbn in Heq.
    + right. by subst.
    + injection Heq as -> ->. left. eauto.
  - intros [(u & v & -> & Hu & Hv)|[Hr Hs]].
    + by apply (m_cat r s (c :: u) v).
    + by apply (m_cat r s [] (c :: w)).
Qed.

(** A non-empty match of a repetition starts with a non-empty match of
    its body. *)
Lemma matches_star_cons (r : re) (c : char) (w : list char) :
  matches (Star r) (c :: w) ↔
  ∃ u v, w = u ++ v ∧ matches r (c :: u) ∧ matches (Star r) v.
Proof.
  split.
  - intros H. remember (Star r) as sr eqn:Hsr. remember (c :: w) as cw eqn:Hcw.
    revert w Hcw.
    induction H as [| | | | | |r' u v Hu _ Hv IH]; try done.
    injection Hsr as ->. intros w Hcw.
    destruct u as [|c' u]; cbn in Hcw.
    + by apply IH.
    + injection Hcw as -> <-. eauto.
  - intros (u & v & -> & Hu & Hv). by apply (m_star_cons r (c :: u) v).
Qed.

Lemma deriv_matches (r : re) :
  ∀ c w, matches (deriv c r) w ↔ matches r (c :: w).
Proof.
  induction r as [| |p|r IHr s IHs|r IHr s IHs|r IHr]; intros c w;
    cbn [deriv].
  - split; by intros ?%matches_void_inv.
  - split; [by intros ?%matches_void_inv|by intros ?%matches_eps_inv].
  - destruct (p c) eqn:Hp.
    + split.
      * intros ->%matches_eps_inv. by constructor.
      * intros (c' & [= <- ->] & _)%matches_class_inv. constructor.
    + split; [by intros ?%matches_void_inv|].
      intros (c' & [= <- ->] & ?)%matches_class_inv. congruence.
  - rewrite matches_cat_cons. destruct (nullable r) eqn:Hn.
    + split.
      * intros [Hl|Hr]%matches_alt_inv.
        -- apply matches_cat_inv in Hl as (u & v & -> & Hu & Hv).
           left. exists u, v. by rewrite <- IHr.
        -- right. by rewrite <- nullable_matches, <- IHs.
      * intros [(u & v & -> & Hu & Hv)|[_ Hs]].
        -- apply m_alt_l, m_cat; [by apply IHr|done].
        -- apply m_alt_r. by apply IHs.
    + split.
      * intros (u & v & -> & Hu & Hv)%matches_cat_inv.
        left. exists u, v. by rewrite <- IHr.
      * intros [(u & v & -> & Hu & Hv)|[Hr _]].
        -- apply m_cat; [by apply IHr|done].
        -- apply nullable_matches in Hr. congruence.
  - split.
    + intros [?|?]%matches_alt_inv;
        [apply m_alt_l; by apply IHr|apply m_alt_r; by apply IHs].
    + intros [?|?]%matches_alt_inv;
        [apply m_alt_l; by apply IHr|apply m_alt_r; by apply IHs].
  - rewrite matches_star_cons. split.
    + intros (u & v & -> & Hu & Hv)%matches_cat_inv.
      exists u, v. by rewrite <- IHr.
    + intros (u & v & -> & Hu & Hv). apply m_cat; [by apply IHr|done].
Qed.

(** The matcher decides the language. *)
Lemma test_matches (r : re) (s : list char) :
  test r s = true ↔ matches r s.
Proof.
  revert r. induction s as [|c s IH]; intros r; cbn [test].
  - apply nullable_matches.
  - by rewrite IH, deriv_matches.
Qed.

(** One or more characters of a class. *)
Lemma matches_plus_class (p : char → bool) (s : list char) :
  matches (Plus (Class p)) s ↔ s ≠ [] ∧ Forall (λ c, p c = true) s.
Proof.
  assert (∀ v, matches (Star (Class p)) v ↔ Forall (λ c, p c = true) v)
    as Hstar.
  { intros v. induction v as [|c v IH].
    - split; [done|constructor].
    - rewrite matches_star_cons, Forall_cons. split.
      + intros (u & v' & -> & Hu & Hv).
        apply matches_class_inv in Hu as (c' & [= -> ->] & Hc).
        split; [done|]. by apply IH.
      + intros [Hc Hv]. exists [], v. split_and!; [done| |by apply IH].
        by constructor. }
  unfold Plus. split.
  - intros (u & v & -> & Hu & Hv)%matches_cat_inv.
    apply matches_class_inv in Hu as (c & -> & Hc). cbn. split; [done|].
    apply Forall_cons. split; [done|]. by apply Hstar.
  - intros [Hne Hall]. destruct s as [|c s]; [done|].
    apply Forall_cons in Hall as [Hc Hs].
    apply (m_cat _ _ [c] s); [by constructor|by apply Hstar].
Qed.

End regex.

End Regex.


(** * The contact form of the older script

    [initContactForm] and [showError] (part_000, lines 74-130).  A string
    is the list of its UTF-16 code units, which is what [trim] and a
    pattern without the [u] flag work on. *)
Module ContactForm.

Abbreviation jsstr := (list N).

(** The code units of a literal made of ASCII characters. *)
Definition units (s : string) : jsstr :=
  N_of_ascii <$> String.list_ascii_of_string s.

(** White space and line terminators of the language: what [\s] matches
    and what [trim] strips. *)
Definition is_space (u : N) : bool :=
  ((9 <=? u) && (u <=? 13) || (u =? 32) || (u =? 160) || (u =? 5760) ||
   (8192 <=? u) && (u <=? 8202) || (u =? 8232) || (u =? 8233) ||
   (u =? 8239) || (u =? 8287) || (u =? 12288) || (u =? 65279))%N.

Definition at_sign : N := 64.
Definition full_stop : N := 46.

(** [[^\s@]] *)
Definition plain (u : N) : bool := negb (is_space u || (u =? at_sign)%N).

(** [/^[^\s@]+@[^\s@]+\.[^\s@]+$/] *)
Definition email_re : Regex.re :=
  Regex.Cat (Regex.Plus (Regex.Class plain))
    (Regex.Cat (Regex.Class (N.eqb at_sign))
       (Regex.Cat (Regex.Plus (Regex.Class plain))
          (Regex.Cat (Regex.Class (N.eqb full_stop))
             (Regex.Plus (Regex.Class plain))))).

Fixpoint trimStart (s : jsstr) : jsstr :=
  match s with
  | [] => []
  | u :: s' => if is_space u then trimStart s' else s
  end.

(** [s.trim()] *)
Definition trim (s : jsstr) : jsstr :=
  reverse (trimStart (reverse (trimStart s))).

(** [!s.trim()]: the empty string is the only falsy string. *)
Definition blank (s : jsstr) : bool := bool_decide (trim s = []).

(** The element after a field, as [showError] and the clearing of errors
    see it.  The model keeps these elements apart from the fields and from
    the success message. *)
Record Sibling := {
  sib_text : jsstr;       (* [textContent] *)
  sib_error : bool;       (* matched by [form.querySelectorAll('.error')] *)
}.

Record Field := {
  value : jsstr;
  next : option Sibling;  (* [nextElementSibling] *)
}.

Inductive FieldId := Name | Email | Subject | Message.

Record Form := {
  nameField : option Field;      (* [getElementById('name')] *)
  emailField : option Field;     (* [getElementById('email')] *)
  subjectField : option Field;   (* [getElementById('subject')] *)
  messageField : option Field;   (* [getElementById('message')] *)
  success : option string;       (* [style.display] of #form-success *)
}.

Definition field (i : FieldId) (f : Form) : option Field :=
  match i with
  | Name => nameField f
  | Email => emailField f
  | Subject => subjectField f
  | Message => messageField f
  end.

Definition set_field (i : FieldId) (x : option Field) (f : Form) : Form :=
  match i with
  | Name =>
      {| nameField := x; emailField := emailField f;
         subjectField := subjectField f; messageField := messageField f;
         success := success f |}
  | Email =>
      {| nameField := nameField f; emailField := x;
         subjectField := subjectField f; messageField := messageField f;
         success := success f |}
  | Subject =>
      {| nameField := nameField f; emailField := emailField f;
         subjectField := x; messageField := messageField f;
         success := success f |}
  | Message =>
      {| nameField := nameField f; emailField := emailField f;
         subjectField := subjectField f; messageField := x;
         success := success f |}
  end.

(** Statements over the form: a value or a throw, and the form left. *)
Definition FM (A : Type) : Type := Form → (A + exn) * Form.

Definition fret {A} (a : A) : FM A := λ f, (inl a, f).

Definition fbind {A B} (m : FM A) (k : A → FM B) : FM B := λ f,
  match m f with
  | (inl a, f') => k a f'
  | (inr e, f') => (inr e, f')
  end.

Declare Scope form_scope.
Delimit Scope form_scope with form.
Bind Scope form_scope with FM.
Notation "x <- m ;; k" := (fbind m (λ x, k))
  (at level 20, m at level 99, k at level 200, only parsing) : form_scope.
Local Open Scope form_scope.

(** [el.value] for a field element that may be [null]. *)
Definition get_value (i : FieldId) : FM jsstr := λ f,
  match field i f with
  | Some x => (inl (value x), f)
  | None => (inr TypeError, f)
  end.

(** [el.value = ''] *)
Definition clear_value (i : FieldId) : FM () := λ f,
  match field i f with
  | Some x => (inl (), set_field i (Some {| value := []; next := next x |}) f)
  | None => (inr TypeError, f)
  end.

(** Lines 125-130:
<<
function showError(inputElement, message) {
  const errorElement = inputElement.nextElementSibling;
  if (errorElement) errorElement.textContent = message;
}
>> *)
Definition showError (i : FieldId) (message : jsstr) : FM () := λ f,
  match field i f with
  | Some x =>
      match next x with
      | Some sb =>
          (inl (),
           set_field i
             (Some {| value := value x;
                      next := Some {| sib_text := message;
                                      sib_error := sib_error sb |} |}) f)
      | None => (inl (), f)
      end
  | None => (inr TypeError, f)
  end.

(** [form.querySelectorAll('.error').forEach(el => el.textContent = '')],
    as far as the elements after the fields are concerned. *)
Definition wipe (x : Field) : Field :=
  {| value := value x;
     next := (λ sb, if sib_error sb
                    then {| sib_text := []; sib_error := true |} else sb)
               <$> next x |}.

Definition clear_errors : FM () := λ f,
  (inl (),
   {| nameField := wipe <$> nameField f; emailField := wipe <$> emailField f;
      subjectField := wipe <$> subjectField f;
      messageField := wipe <$> messageField f; success := success f |}).

(** [if (successMessage) successMessage.style.display = 'block'] *)
Definition show_success : FM () := λ f,
  (inl (),
   {| nameField := nameField f; emailField := emailField f;
      subjectField := subjectField f; messageField := messageField f;
      success := (λ _, "block") <$> success f |}).

(** A required field: lines 87-90, 100-103 and 105-108. *)
Definition require (i : FieldId) (message : string) (valid : bool) : FM bool :=
  v <- get_value i;;
  if blank v then (_ <- showError i (units message);; fret false)
  else fret valid.

(** Lines 77-122, the submit listener. *)
Definition onSubmit : FM () :=
  _ <- clear_errors;;
  valid <- require Name "Name is required" true;;
  e <- get_value Email;;
  valid <- (if blank e then
              _ <- showError Email (units "Email is required");; fret false
            else if negb (Regex.test email_re e) then
              _ <- showError Email (units "Enter a valid email");; fret false
            else fret valid);;
  valid <- require Subject "Subject is required" valid;;
  valid <- require Message "Message is required" valid;;
  if valid then
    _ <- show_success;;
    _ <- clear_value Name;;
    _ <- clear_value Email;;
    _ <- clear_value Subject;;
    clear_value Message
  else fret ().

(** ** The pattern for addresses *)

Lemma trimStart_nil (s : jsstr) :
  trimStart s = [] ↔ Forall (λ u, is_space u = true) s.
Proof.
  induction s as [|u s IH]; cbn [trimStart]; [done|].
  rewrite Forall_cons. destruct (is_space u); [|split; [done|by intros []]].
  rewrite IH. split; [done|by intros []].
Qed.

Lemma trimStart_suffix (s : jsstr) : trimStart s `suffix_of` s.
Proof.
  induction s as [|u s IH]; cbn [trimStart]; [done|].
  destruct (is_space u); [by apply suffix_cons_r|done].
Qed.

(** X25.  [!value.trim()] holds exactly for the strings made of white
    space only, the empty string among them. *)
Theorem blank_iff_only_spaces (s : jsstr) :
  blank s = true ↔ Forall (λ u, is_space u = true) s.
Proof.
  unfold blank, trim. rewrite bool_decide_eq_true. split.
  - intros Hnil. apply (f_equal reverse) in Hnil.
    rewrite reverse_involutive, reverse_nil in Hnil.
    apply trimStart_nil in Hnil. rewrite Forall_reverse in Hnil.
    apply trimStart_nil.
    destruct (trimStart s) as [|u t] eqn:Ht; [done|]. exfalso.
    assert (is_space u = false) as Hu.
    { clear Hnil. induction s as [|u' s IH]; [done|]. cbn in Ht.
      destruct (is_space u') eqn:Hu'; [by apply IH|]. congruence. }
    apply Forall_cons in Hnil as [Hsp _]. congruence.
  - intros Hall. apply trimStart_nil in Hall. by rewrite Hall.
Qed.

(** A string that starts with a character other than white space is not
    blank. *)
Lemma blank_false_head (u : N) (s : jsstr) :
  is_space u = false → blank (u :: s) = false.
Proof.
  intros Hu. unfold blank, trim. apply bool_decide_eq_false.
  cbn [trimStart]. rewrite Hu, reverse_cons. intros Hnil.
  apply (f_equal reverse) in Hnil.
  rewrite reverse_involutive, reverse_nil in Hnil.
  apply trimStart_nil in Hnil.
  rewrite Forall_app, Forall_singleton in Hnil. destruct Hnil. congruence.
Qed.

Lemma plain_spec (u : N) :
  plain u = true ↔ is_space u = false ∧ u ≠ at_sign.
Proof.
  unfold plain. rewrite negb_true_iff, orb_false_iff, N.eqb_neq. done.
Qed.

(** The language of the pattern. *)
Lemma email_re_matches (s : jsstr) :
  Regex.test email_re s = true ↔
  ∃ a b c, s = a ++ at_sign :: b ++ full_stop :: c ∧
    a ≠ [] ∧ b ≠ [] ∧ c ≠ [] ∧
    Forall (λ u, plain u = true) a ∧ Forall (λ u, plain u = true) b ∧
    Forall (λ u, plain u = true) c.
Proof.
  rewrite Regex.test_matches. unfold email_re. split.
  - intros (a & r1 & -> & Ha & H1)%Regex.matches_cat_inv.
    apply Regex.matches_cat_inv in H1 as (x & r2 & -> & Hx & H2).
    apply Regex.matches_cat_inv in H2 as (b & r3 & -> & Hb & H3).
    apply Regex.matches_cat_inv in H3 as (y & c & -> & Hy & Hc).
    apply Regex.matches_class_inv in Hx as (u1 & -> & <-%N.eqb_eq).
    apply Regex.matches_class_inv in Hy as (u2 & -> & <-%N.eqb_eq).
    apply Regex.matches_plus_class in Ha as [? ?].
    apply Regex.matches_plus_class in Hb as [? ?].
    apply Regex.matches_plus_class in Hc as [? ?].
    exists a, b, c. done.
  - intros (a & b & c & -> & Ha & Hb & Hc & Fa & Fb & Fc).
    apply Regex.m_cat; [by apply Regex.matches_plus_class|].
    apply (Regex.m_cat _ _ [at_sign]);
      [constructor; by apply N.eqb_eq|].
    apply Regex.m_cat; [by apply Regex.matches_plus_class|].
    apply (Regex.m_cat _ _ [full_stop]);
      [constructor; by apply N.eqb_eq|].
    by apply Regex.matches_plus_class.
Qed.

Lemma filter_at_plain (l : jsstr) :
  Forall (λ u, plain u = true) l → filter (λ u, u = at_sign) l = [].
Proof.
  induction 1 as [|u l Hu _ IH]; [done|].
  apply plain_spec in Hu as [_ Hne]. by rewrite filter_cons_False.
Qed.

(** X26.  What an accepted address looks like: the pattern accepts
    exactly the strings without white space that consist of a non-empty
    part free of ["@"], one ["@"], and a part free of ["@"] that has a
    full stop with at least one character on either side.  In particular
    an accepted string holds exactly one ["@"], is not blank, and does not
    begin or end with white space. *)
Theorem accepted_email_shape (s : jsstr) :
  (Regex.test email_re s = true ↔
   Forall (λ u, is_space u = false) s ∧
   ∃ a b c, s = a ++ at_sign :: b ++ full_stop :: c ∧
     a ≠ [] ∧ b ≠ [] ∧ c ≠ [] ∧
     (at_sign ∉ a) ∧ (at_sign ∉ b) ∧ (at_sign ∉ c)) ∧
  (Regex.test email_re s = true →
   length (filter (λ u, u = at_sign) s) = 1 ∧ blank s = false).
Proof.
  assert (∀ l : jsstr, Forall (λ u, plain u = true) l ↔
            Forall (λ u, is_space u = false) l ∧ at_sign ∉ l) as Hplain.
  { intros l. rewrite !Forall_forall. split.
    - intros Hall. split; [intros u Hu; by apply plain_spec, Hall|].
      intros Hin. by apply Hall, plain_spec in Hin as [_ ?].
    - intros [Hsp Hat] u Hu. apply plain_spec. split; [by apply Hsp|].
      by intros ->. }
  split.
  - rewrite email_re_matches. split.
    + intros (a & b & c & -> & Ha & Hb & Hc & Fa & Fb & Fc).
      apply Hplain in Fa as [Sa Na], Fb as [Sb Nb], Fc as [Sc Nc].
      split; [|by exists a, b, c].
      rewrite Forall_app, Forall_cons, Forall_app, Forall_cons. done.
    + intros (Hsp & a & b & c & -> & Ha & Hb & Hc & Na & Nb & Nc).
      rewrite Forall_app, Forall_cons, Forall_app, Forall_cons in Hsp.
      destruct Hsp as (Sa & _ & Sb & _ & Sc).
      exists a, b, c. split_and!; try done; by apply Hplain.
  - intros (a & b & c & -> & Ha & Hb & Hc & Fa & Fb & Fc)%email_re_matches.
    split.
    + rewrite filter_app, filter_cons_True, filter_app by done.
      rewrite (filter_cons_False _ full_stop) by done.
      by rewrite !filter_at_plain.
    + destruct a as [|u a]; [done|].
      apply Forall_cons in Fa as [Hu _]. apply plain_spec in Hu as [Hu _].
      by apply blank_false_head.
Qed.

(** ** The submit listener *)

(** What the listener has to say about the value of a field, if
    anything. *)
Definition complaint (i : FieldId) (v : jsstr) : option string :=
  match i with
  | Name => if blank v then Some "Name is required" else None
  | Email =>
      if blank v then Some "Email is required"
      else if negb (Regex.test email_re v) then Some "Enter a valid email"
      else None
  | Subject => if blank v then Some "Subject is required" else None
  | Message => if blank v then Some "Message is required" else None
  end.

(** A field whose following element, if any, got the message. *)
Definition mark (message : jsstr) (x : Field) : Field :=
  {| value := value x;
     next := (λ sb, {| sib_text := message; sib_error := sib_error sb |})
               <$> next x |}.

Lemma showError_spec (i : FieldId) (message : jsstr) (f : Form) :
  showError i message f =
  match field i f with
  | Some x => (inl (), set_field i (Some (mark message x)) f)
  | None => (inr TypeError, f)
  end.
Proof.
  unfold showError. destruct (field i f) as [[v [sb|]]|] eqn:Hf; try done.
  unfold mark. cbn. by destruct i, f; cbn in *; subst.
Qed.

(** A field after a rejected and after an accepted submission. *)
Definition rejected (i : FieldId) (x : Field) : Field :=
  match complaint i (value x) with
  | Some m => mark (units m) (wipe x)
  | None => wipe x
  end.

Definition accepted (x : Field) : Field :=
  {| value := []; next := next (wipe x) |}.

(** Whether all four values pass. *)
Definition passes (xn xe xs xm : Field) : bool :=
  bool_decide (complaint Name (value xn) = None) &&
  bool_decide (complaint Email (value xe) = None) &&
  bool_decide (complaint Subject (value xs) = None) &&
  bool_decide (complaint Message (value xm) = None).

Ltac form_cases :=
  repeat first
    [ rewrite showError_spec
    | progress cbn [field set_field nameField emailField subjectField
                    messageField success value next wipe mark
                    fst snd negb andb rejected accepted complaint]
    | match goal with
      | |- context [blank ?v] => destruct (blank v) eqn:?
      | |- context [Regex.test email_re ?v] =>
          destruct (Regex.test email_re v) eqn:?
      end ].

(** The listener on a form with all four fields. *)
Lemma onSubmit_spec (f : Form) (xn xe xs xm : Field) :
  nameField f = Some xn → emailField f = Some xe →
  subjectField f = Some xs → messageField f = Some xm →
  onSubmit f =
  (inl (),
   if passes xn xe xs xm then
     {| nameField := Some (accepted xn); emailField := Some (accepted xe);
        subjectField := Some (accepted xs); messageField := Some (accepted xm);
        success := (λ _, "block") <$> success f |}
   else
     {| nameField := Some (rejected Name xn);
        emailField := Some (rejected Email xe);
        subjectField := Some (rejected Subject xs);
        messageField := Some (rejected Message xm);
        success := success f |}).
Proof.
  destruct f as [fn fe fs fm sc]. cbn. intros -> -> -> ->.
  unfold onSubmit, require, fbind, fret, clear_errors, get_value,
    show_success, clear_value, passes, rejected, accepted, complaint.
  cbn [fmap option_fmap option_map].
  form_cases; first [reflexivity | congruence].
Qed.

(** The values of the four fields. *)
Definition values (f : Form) : list (option jsstr) :=
  (λ i, value <$> field i f) <$> [Name; Email; Subject; Message].

(** X27.  When all four fields exist the listener completes, and it
    accepts the form exactly when name, subject and message have a
    character that is not white space and the address is not blank and
    matches the pattern.  An accepted form has its four values emptied and
    the success message (if the element exists) displayed; a rejected form
    keeps every value, and the display of the success message is left as
    it was, so a message shown by an earlier submission stays. *)
Theorem submit_accepts_or_keeps (f : Form) (xn xe xs xm : Field) :
  nameField f = Some xn → emailField f = Some xe →
  subjectField f = Some xs → messageField f = Some xm →
  let f' := (onSubmit f).2 in
  let ok := negb (blank (value xn)) && negb (blank (value xe)) &&
            Regex.test email_re (value xe) &&
            negb (blank (value xs)) && negb (blank (value xm)) in
  (onSubmit f).1 = inl () ∧
  if ok
  then values f' = [Some []; Some []; Some []; Some []] ∧
       success f' = (λ _, "block") <$> success f
  else values f' = values f ∧ success f' = success f.
Proof.
  intros Hn He Hs Hm f' ok. subst f'.
  assert (passes xn xe xs xm = ok) as Hpass.
  { subst ok. unfold passes, complaint.
    destruct (blank (value xn)), (blank (value xe)),
      (Regex.test email_re (value xe)), (blank (value xs)),
      (blank (value xm)); reflexivity. }
  rewrite (onSubmit_spec f xn xe xs xm Hn He Hs Hm), Hpass.
  cbn [fst snd]. split; [done|]. unfold values.
  destruct ok; cbn; [done|]. rewrite Hn, He, Hs, Hm. cbn.
  unfold rejected.
  by destruct (complaint Name _), (complaint Email _), (complaint Subject _),
    (complaint Message _).
Qed.

(** X28.  What ends up in the element after a field.  When all four
    fields exist, the element that follows a field keeps its class and
    holds, after the listener ran: the complaint about that field's value
    if there is one (for the address, "required" for a blank value,
    otherwise "valid" for one the pattern rejects); else the empty string
    if the element is an [.error] element of the form; else what it held
    before. *)
Theorem submit_writes_complaints
    (f : Form) (xn xe xs xm : Field) (i : FieldId) (x : Field) (sb : Sibling) :
  nameField f = Some xn → emailField f = Some xe →
  subjectField f = Some xs → messageField f = Some xm →
  field i f = Some x →
  next x = Some sb →
  ∃ x', field i (onSubmit f).2 = Some x' ∧
    next x' =
    Some {| sib_text := match complaint i (value x) with
                        | Some m => units m
                        | None => if sib_error sb then [] else sib_text sb
                        end;
            sib_error := sib_error sb |}.
Proof.
  intros Hn He Hs Hm Hi Hsb.
  rewrite (onSubmit_spec f xn xe xs xm Hn He Hs Hm). cbn [snd].
  assert (next (wipe x) =
          Some {| sib_text := if sib_error sb then [] else sib_text sb;
                  sib_error := sib_error sb |}) as Hw.
  { unfold wipe. cbn. rewrite Hsb. cbn. by destruct sb as [t []]. }
  assert (∀ m, next (mark m (wipe x)) =
               Some {| sib_text := m; sib_error := sib_error sb |}) as Hmk.
  { intros m. unfold mark. cbn [next]. by rewrite Hw. }
  assert (passes xn xe xs xm = true → complaint i (value x) = None) as Hnone.
  { unfold passes. rewrite !andb_true_iff, !bool_decide_eq_true.
    intros [[[? ?] ?] ?].
    destruct i; cbn in Hi; rewrite Hi in *; congruence. }
  destruct (passes xn xe xs xm) eqn:Hp.
  - rewrite (Hnone eq_refl). exists (accepted x). split.
    + destruct i; cbn in *; congruence.
    + unfold accepted. cbn [next]. by rewrite Hw.
  - exists (rejected i x). split.
    + destruct i; cbn in *; congruence.
    + unfold rejected. destruct (complaint i (value x)); [apply Hmk|apply Hw].
Qed.

(** X29.  When one of the four fields is missing the listener throws:
    no value is emptied and the success message is not displayed, whatever
    the other fields hold. *)
Theorem submit_missing_field_throws (f : Form) (i : FieldId) :
  field i f = None →
  (onSubmit f).1 = inr TypeError ∧
  values (onSubmit f).2 = values f ∧
  success (onSubmit f).2 = success f.
Proof.
  intros Hi. unfold values.
  assert (∀ x, value (wipe x) = value x) as Hvw by done.
  assert (∀ m x, value (mark m x) = value x) as Hvm by done.
  destruct f as [[xn|] [xe|] [xs|] [xm|] sc];
    try (by destruct i);
    unfold onSubmit, require, fbind, fret, clear_errors, get_value,
      show_success, clear_value;
    repeat first
      [ rewrite showError_spec
      | rewrite Hvw
      | rewrite Hvm
      | progress cbn -[blank Regex.test email_re units mark wipe showError]
      | match goal with
        | |- context [blank ?v] => destruct (blank v) eqn:?
        | |- context [Regex.test email_re ?v] =>
            destruct (Regex.test email_re v) eqn:?
        end ];
    done.
Qed.

(** ** A sample form *)

Definition error_span : Sibling := {| sib_text := []; sib_error := true |}.

Definition input (v : string) : Field :=
  {| value := units v; next := Some error_span |}.

Definition filled : Form :=
  {| nameField := Some (input "Ada"); emailField := Some (input "ada@example.org");
     subjectField := Some (input "Hello"); messageField := Some (input "Good day");
     success := Some "none" |}.

(** The address carries a trailing space. *)
Definition trailing_space : Form :=
  set_field Email (Some (input "ada@example.org ")) filled.

Example filled_is_accepted :
  onSubmit filled =
  (inl (),
   {| nameField := Some (input ""); emailField := Some (input "");
      subjectField := Some (input ""); messageField := Some (input "");
      success := Some "block" |}).
Proof. vm_compute. reflexivity. Qed.

Example trailing_space_is_rejected :
  (next <$> emailField (onSubmit trailing_space).2) =
  Some (Some {| sib_text := units "Enter a valid email"; sib_error := true |}).
Proof. vm_compute. reflexivity. Qed.

Lemma accepted_email_shape_witness :
  length (filter (λ u, u = at_sign) (units "ada@example.org")) = 1.
Proof.
  exact (proj1 (proj2 (accepted_email_shape (units "ada@example.org"))
                  ltac:(vm_compute; reflexivity))).
Defined.

Lemma submit_accepts_or_keeps_witness :
  (onSubmit filled).1 = inl ().
Proof.
  exact (proj1 (submit_accepts_or_keeps filled _ _ _ _
                  eq_refl eq_refl eq_refl eq_refl)).
Defined.

Lemma submit_writes_complaints_witness :
  ∃ x', field Email (onSubmit trailing_space).2 = Some x' ∧
    next x' = Some {| sib_text := units "Enter a valid email";
                      sib_error := true |}.
Proof.
  exact (submit_writes_complaints trailing_space _ _ _ _ Email
           (input "ada@example.org ") error_span
           eq_refl eq_refl eq_refl eq_refl eq_refl eq_refl).
Defined.

Lemma submit_missing_field_throws_witness :
  (onSubmit (set_field Subject None filled)).1 = inr TypeError.
Proof.
  exact (proj1 (submit_missing_field_throws (set_field Subject None filled)
                  Subject eq_refl)).
Defined.

End ContactForm.
